(** * Mutual-match resolution of the live-matching backend

    A shallow embedding of [database.py] (the SQLite store) and of
    [matching.py] (the resolver), followed by the properties of the
    resolver; then the rest of [database.py] and the routes of [app.py]
    that work on the store, with their properties.

    Store calls are modelled in a small state-and-exception monad: the
    state is the content of the three tables together with a fault
    schedule saying how many more store calls succeed before SQLite
    raises. *)

From Stdlib Require Import ZArith Lia.
From stdpp Require Import base option list gmap sets strings sorting.

Local Open Scope Z_scope.

(** ** Rows of the tables ([database.py], [init_db]) *)

(** [participants]: id, first_name, gender, email, unique_token. *)
Record Participant := mkParticipant {
  p_id : Z;
  p_first_name : string;
  p_gender : string;
  p_email : string;
  p_unique_token : string
}.

(** [selections]: id, selector_id, selected_id, rank. *)
Record SelectionRow := mkSelectionRow {
  s_id : Z;
  s_selector_id : Z;
  s_selected_id : Z;
  s_rank : Z
}.

(** The dictionary [{'selected_id': .., 'rank': ..}] that
    [get_selections_by_participant] builds from a row. *)
Record Selection := mkSelection {
  selected_id : Z;
  rank : Z
}.

(** The dictionary appended to [matches] by [find_mutual_matches], which
    is also the column list of [add_match]. *)
Record Match := mkMatch {
  participant1_id : Z;
  participant2_id : Z;
  rank1 : Z;
  rank2 : Z
}.

(** [matches]: the AUTOINCREMENT id and the four inserted columns. *)
Record MatchRow := mkMatchRow {
  m_id : Z;
  m_columns : Match
}.

(** The database file.  [matches_seq] is the AUTOINCREMENT counter of the
    [matches] table (the largest id ever handed out), which survives a
    DELETE. *)
Record Database := mkDatabase {
  participants : list Participant;
  selections : list SelectionRow;
  matches : list MatchRow;
  matches_seq : Z
}.

(** ** The store monad *)

Inductive exn := OperationalError | KeyError.

(** [faults = Some k]: the next [k] store calls succeed and every later
    one raises; [faults = None]: the store never fails. *)
Record Store := mkStore {
  db : Database;
  faults : option nat
}.

Definition reliable (d : Database) : Store := mkStore d None.

Definition M (A : Type) : Type := Store -> (exn + A) * Store.

Definition ret {A} (a : A) : M A := fun s => (inr a, s).

Definition raise {A} (e : exn) : M A := fun s => (inl e, s).

Definition bind {A B} (m : M A) (f : A -> M B) : M B :=
  fun s =>
    match m s with
    | (inr a, s') => f a s'
    | (inl e, s') => (inl e, s')
    end.

Notation "x <- m ;; k" := (bind m (fun x => k))
  (at level 100, m at next level, right associativity).
Notation "m ;;; k" := (bind m (fun _ => k))
  (at level 100, right associativity).

(** A Python [for x in l: acc = body acc x]. *)
Fixpoint for_each {A B} (l : list B) (acc : A) (body : A -> B -> M A) : M A :=
  match l with
  | [] => ret acc
  | x :: l' => acc' <- body acc x ;; for_each l' acc' body
  end.

(** SELECT: one store call that reads the tables. *)
Definition query {A} (q : Database -> A) : M A :=
  fun s =>
    match faults s with
    | None => (inr (q (db s)), s)
    | Some O => (inl OperationalError, s)
    | Some (S k) => (inr (q (db s)), mkStore (db s) (Some k))
    end.

(** INSERT / DELETE followed by [commit]: one store call that replaces the
    tables; nothing is written when the call raises. *)
Definition execute (u : Database -> Database) : M unit :=
  fun s =>
    match faults s with
    | None => (inr tt, mkStore (u (db s)) None)
    | Some O => (inl OperationalError, s)
    | Some (S k) => (inr tt, mkStore (u (db s)) (Some k))
    end.

(** ** [database.py] *)

(** ORDER BY on an integer column: an insertion sort that keeps rows with
    equal keys in table order (SQLite promises no order among them). *)
Fixpoint insert_by {A} (key : A -> Z) (x : A) (l : list A) : list A :=
  match l with
  | [] => [x]
  | y :: l' => if key y <? key x then y :: insert_by key x l' else x :: y :: l'
  end.

Definition order_by {A} (key : A -> Z) (l : list A) : list A :=
  foldr (fun x sorted => insert_by key x sorted) [] l.

(** SELECT ... FROM participants ORDER BY id *)
Definition select_all_participants (table : list Participant) : list Participant :=
  order_by p_id table.

(** SELECT selected_id, rank FROM selections WHERE selector_id = ?
    ORDER BY rank *)
Definition select_selections (participant_id : Z) (table : list SelectionRow)
    : list Selection :=
  (fun r => mkSelection (s_selected_id r) (s_rank r)) <$>
    order_by s_rank (filter (fun r => s_selector_id r = participant_id) table).

Definition delete_matches (d : Database) : Database :=
  mkDatabase (participants d) (selections d) [] (matches_seq d).

Definition insert_match (m : Match) (d : Database) : Database :=
  mkDatabase (participants d) (selections d)
             (matches d ++ [mkMatchRow (matches_seq d + 1) m])
             (matches_seq d + 1).

Definition get_all_participants : M (list Participant) :=
  query (fun d => select_all_participants (participants d)).

Definition get_selections_by_participant (participant_id : Z) : M (list Selection) :=
  query (fun d => select_selections participant_id (selections d)).

Definition clear_matches : M unit :=
  execute delete_matches.

Definition add_match (participant1_id participant2_id rank1 rank2 : Z) : M unit :=
  execute (insert_match (mkMatch participant1_id participant2_id rank1 rank2)).

(** ** Python dictionaries with integer keys and values

    A dictionary keeps its keys in insertion order; assigning to a key
    that is present replaces the value in place. *)

Definition dict := list (Z * Z).

Fixpoint dict_set (k v : Z) (d : dict) : dict :=
  match d with
  | [] => [(k, v)]
  | (k', v') :: d' =>
      if k' =? k then (k', v) :: d' else (k', v') :: dict_set k v d'
  end.

Fixpoint dict_get (d : dict) (k : Z) : option Z :=
  match d with
  | [] => None
  | (k', v') :: d' => if k' =? k then Some v' else dict_get d' k
  end.

(** [k in d] *)
Definition dict_mem (k : Z) (d : dict) : bool :=
  match dict_get d k with Some _ => true | None => false end.

(** [d.keys()] *)
Definition dict_keys (d : dict) : list Z := fst <$> d.

(** [d[k]], which raises [KeyError] on a missing key. *)
Definition getitem (d : dict) (k : Z) : M Z :=
  match dict_get d k with
  | Some v => ret v
  | None => raise KeyError
  end.

(** [{sel['selected_id']: sel['rank'] for sel in sels}] *)
Definition selections_dict (sels : list Selection) : dict :=
  fold_left (fun d sel => dict_set (selected_id sel) (rank sel) d) sels [].

(** ** [matching.py] *)

(** [tuple(sorted([a, b]))] *)
Definition sorted_pair (a b : Z) : Z * Z :=
  if b <? a then (b, a) else (a, b).

(** The loop state: the list [matches] and the set [processed_pairs]. *)
Definition found : Type := list Match * gset (Z * Z).

(** Lines 32-51: what the inner loop does with the two dictionaries once
    the reverse selections are fetched. *)
Definition record_if_mutual (participant_id : Z)
    (their_selections_dict reverse_selections_dict : dict)
    (st : found) (selected : Z) : M found :=
  if dict_mem participant_id reverse_selections_dict then
    let pair := sorted_pair participant_id selected in
    if decide (pair ∈ st.2) then ret st
    else
      ranks <- (if pair.1 =? participant_id then
                  r1 <- getitem their_selections_dict selected ;;
                  r2 <- getitem reverse_selections_dict participant_id ;;
                  ret (r1, r2)
                else
                  r1 <- getitem reverse_selections_dict participant_id ;;
                  r2 <- getitem their_selections_dict selected ;;
                  ret (r1, r2)) ;;
      ret (st.1 ++ [mkMatch pair.1 pair.2 ranks.1 ranks.2], {[pair]} ∪ st.2)
  else ret st.

(** The body of the inner loop (lines 28-51). *)
Definition check_selected (participant_id : Z) (their_selections_dict : dict)
    (st : found) (selected : Z) : M found :=
  reverse_selections <- get_selections_by_participant selected ;;
  record_if_mutual participant_id their_selections_dict
                   (selections_dict reverse_selections) st selected.

(** The body of the outer loop (lines 21-51). *)
Definition check_participant (st : found) (participant : Participant) : M found :=
  let participant_id := p_id participant in
  their_selections <- get_selections_by_participant participant_id ;;
  let their_selections_dict := selections_dict their_selections in
  for_each (dict_keys their_selections_dict) st
           (check_selected participant_id their_selections_dict).

(** Lines 17-53: the resolver over a given participant list. *)
Definition mutual_matches_among (ps : list Participant) : M (list Match) :=
  st <- for_each ps (([], ∅) : found) check_participant ;;
  ret st.1.

Definition find_mutual_matches : M (list Match) :=
  ps <- get_all_participants ;;
  mutual_matches_among ps.

Definition run_matching_algorithm : M nat :=
  clear_matches ;;;
  found_matches <- find_mutual_matches ;;
  for_each found_matches tt
    (fun _ m => add_match (participant1_id m) (participant2_id m)
                          (rank1 m) (rank2 m)) ;;;
  ret (length found_matches).

(** * Properties *)

(** ** Read-only computations

    A computation that makes [n] store calls, none of which writes, and
    then returns [a]: with fewer than [n] calls left before the fault it
    raises at the failing call, with the tables as they were. *)

Definition covers (b : option nat) (n : nat) : bool :=
  match b with
  | None => true
  | Some k => (n <=? k)%nat
  end.

Definition spend (b : option nat) (n : nat) : option nat :=
  match b with
  | None => None
  | Some k => Some (k - n)%nat
  end.

Definition after_reads {A} (n : nat) (a : A) (s : Store) : (exn + A) * Store :=
  if covers (faults s) n
  then (inr a, mkStore (db s) (spend (faults s) n))
  else (inl OperationalError, mkStore (db s) (Some 0%nat)).

Section Reads.
(** The two tables the resolver reads. *)
Variable P : list Participant.
Variable S : list SelectionRow.

Definition Reads {A} (m : M A) (n : nat) (a : A) : Prop :=
  ∀ s, participants (db s) = P → selections (db s) = S →
       m s = after_reads n a s.

Lemma Reads_ret {A} (a : A) : Reads (ret a) 0 a.
Proof.
  intros [d [k|]] _ _; unfold ret, after_reads; simpl; [|done].
  by rewrite Nat.sub_0_r.
Qed.

Lemma Reads_query {A} (q : Database → A) (a : A) :
  (∀ d, participants d = P → selections d = S → q d = a) →
  Reads (query q) 1 a.
Proof.
  intros Hq [d [[|k]|]] HP HS; unfold query, after_reads; simpl in *;
    rewrite ?(Hq d HP HS); try done.
  by rewrite Nat.sub_0_r.
Qed.

Lemma Reads_bind {A B} (m : M A) (f : A → M B) n n' a b :
  Reads m n a → Reads (f a) n' b → Reads (bind m f) (n + n') b.
Proof.
  intros Hm Hf [d fl] HP HS. unfold bind. rewrite (Hm _ HP HS).
  unfold after_reads at 1. simpl.
  destruct (covers fl n) eqn:Hc.
  - rewrite (Hf (mkStore d (spend fl n)) HP HS). unfold after_reads. simpl.
    destruct fl as [k|]; simpl in *; [|done].
    apply Nat.leb_le in Hc.
    destruct (n' <=? k - n)%nat eqn:Hc'.
    + apply Nat.leb_le in Hc'.
      replace (n + n' <=? k)%nat with true by (symmetry; apply Nat.leb_le; lia).
      do 3 f_equal. lia.
    + apply Nat.leb_gt in Hc'.
      by replace (n + n' <=? k)%nat with false by (symmetry; apply Nat.leb_gt; lia).
  - destruct fl as [k|]; simpl in *; [|done].
    apply Nat.leb_gt in Hc. unfold after_reads. simpl.
    by replace (n + n' <=? k)%nat with false by (symmetry; apply Nat.leb_gt; lia).
Qed.

Lemma Reads_getitem (d : dict) k v :
  dict_get d k = Some v → Reads (getitem d k) 0 v.
Proof. intros H. unfold getitem. rewrite H. apply Reads_ret. Qed.

(** The loop rule: an invariant indexed by the elements already seen. *)
Lemma Reads_for_each {A B} (I : list B → A → Prop) (body : A → B → M A) :
  ∀ (l pre : list B) (acc : A),
    I pre acc →
    (∀ pre' x acc', x ∈ l → I pre' acc' →
       ∃ n acc'', Reads (body acc' x) n acc'' ∧ I (pre' ++ [x]) acc'') →
    ∃ n acc', Reads (for_each l acc body) n acc' ∧ I (pre ++ l) acc'.
Proof.
  induction l as [|x l IH]; intros pre acc HI Hbody; simpl.
  - exists 0%nat, acc. rewrite app_nil_r. split; [apply Reads_ret|done].
  - destruct (Hbody pre x acc) as (n & acc1 & Hr & HI1); [left|done|].
    destruct (IH (pre ++ [x]) acc1 HI1) as (n' & acc2 & Hr' & HI2).
    { intros pre' y acc' Hy. apply Hbody. by right. }
    exists (n + n')%nat, acc2. split.
    + by eapply Reads_bind.
    + by rewrite <- app_assoc in HI2.
Qed.

(** On a store that never fails a read-only computation returns its
    value and leaves the store as it was. *)
Lemma Reads_reliable {A} (m : M A) n a d :
  Reads m n a → participants d = P → selections d = S →
  m (reliable d) = (inr a, reliable d).
Proof. intros Hm HP HS. by rewrite (Hm (reliable d) HP HS). Qed.
End Reads.

(** ** Dictionaries *)

Lemma dict_get_set d k v k' :
  dict_get (dict_set k v d) k' = if k =? k' then Some v else dict_get d k'.
Proof.
  induction d as [|[k0 v0] d IH]; simpl; [done|].
  destruct (Z.eqb_spec k0 k) as [->|Hne]; simpl.
  - by destruct (Z.eqb_spec k k').
  - rewrite IH. destruct (Z.eqb_spec k0 k') as [->|]; [|done].
    by destruct (Z.eqb_spec k k').
Qed.

Lemma dict_keys_get d k : k ∈ dict_keys d ↔ is_Some (dict_get d k).
Proof.
  unfold dict_keys. induction d as [|[k0 v0] d IH]; simpl.
  - split; [by intros ?%elem_of_nil|by intros [? ?]].
  - rewrite elem_of_cons, IH. simpl.
    destruct (Z.eqb_spec k0 k) as [->|Hne]; [by split; eauto|].
    split; [by intros [?|?]|by right].
Qed.

Lemma dict_mem_get d k : dict_mem k d = true ↔ is_Some (dict_get d k).
Proof.
  unfold dict_mem. destruct (dict_get d k); split; try done; eauto.
Qed.

(** A key of the comprehension comes from one of the selections, and its
    value is the rank of one of them. *)
Lemma selections_dict_from sels d0 k :
  is_Some (dict_get (fold_left (fun d sel => dict_set (selected_id sel) (rank sel) d) sels d0) k)
  ↔ is_Some (dict_get d0 k) ∨ ∃ sel, sel ∈ sels ∧ selected_id sel = k.
Proof.
  revert d0. induction sels as [|sel sels IH]; intros d0; simpl.
  - split; [by left|]. intros [?|(? & ?%elem_of_nil & _)]; done.
  - rewrite IH, dict_get_set.
    destruct (Z.eqb_spec (selected_id sel) k) as [Heq|Hne]; split.
    + intros _. right. exists sel. split; [left|done].
    + intros _. left. eauto.
    + intros [?|(sel' & ? & ?)]; [by left|]. right. exists sel'. split; [by right|done].
    + intros [?|(sel' & [->|?]%elem_of_cons & ?)]; [by left|done|].
      right. by exists sel'.
Qed.

Lemma selections_dict_value sels d0 k v :
  dict_get (fold_left (fun d sel => dict_set (selected_id sel) (rank sel) d) sels d0) k = Some v →
  dict_get d0 k = Some v ∨ ∃ sel, sel ∈ sels ∧ selected_id sel = k ∧ rank sel = v.
Proof.
  revert d0. induction sels as [|sel sels IH]; intros d0; simpl; [by left|].
  intros [H|(sel' & ? & ?)]%IH.
  - rewrite dict_get_set in H.
    destruct (Z.eqb_spec (selected_id sel) k) as [Heq|Hne]; [|by left].
    right. exists sel. split; [left|]. split; congruence.
  - right. exists sel'. split; [by right|done].
Qed.

(** ** ORDER BY keeps the rows *)

Lemma elem_of_insert_by {A} (key : A → Z) x y l :
  y ∈ insert_by key x l ↔ y = x ∨ y ∈ l.
Proof.
  induction l as [|z l IH]; simpl.
  - rewrite list_elem_of_singleton. split; [by left|]. by intros [?|?%elem_of_nil].
  - destruct (key z <? key x); rewrite !elem_of_cons, ?IH; tauto.
Qed.

Lemma elem_of_order_by {A} (key : A → Z) y l : y ∈ order_by key l ↔ y ∈ l.
Proof.
  unfold order_by. induction l as [|x l IH]; simpl; [done|].
  by rewrite elem_of_insert_by, elem_of_cons, IH.
Qed.

Lemma insert_by_Permutation {A} (key : A → Z) x l : insert_by key x l ≡ₚ x :: l.
Proof.
  induction l as [|z l IH]; simpl; [done|].
  destruct (key z <? key x); [|done].
  rewrite IH. apply perm_swap.
Qed.

Lemma order_by_Permutation {A} (key : A → Z) l : order_by key l ≡ₚ l.
Proof.
  unfold order_by. induction l as [|x l IH]; simpl; [done|].
  by rewrite insert_by_Permutation, IH.
Qed.

(** ** The resolver's loops *)

Definition pair_of (m : Match) : Z * Z := (participant1_id m, participant2_id m).

Section Resolver.
Variable P : list Participant.
Variable S : list SelectionRow.

(** The dictionary the resolver builds from the selections of [a]. *)
Definition their (a : Z) : dict := selections_dict (select_selections a S).

(** A record as the resolver writes it for a mutual pair: lower id
    first, each rank read from the dictionary of the side that gave it. *)
Definition well_ranked (m : Match) : Prop :=
  participant1_id m ≤ participant2_id m
  ∧ dict_get (their (participant1_id m)) (participant2_id m) = Some (rank1 m)
  ∧ dict_get (their (participant2_id m)) (participant1_id m) = Some (rank2 m).

(** The loop invariant, for the list [V] of (participant, selected)
    pairs the inner loop has gone through so far. *)
Record consistent (V : list (Z * Z)) (st : found) : Prop := {
  c_seen : ∀ pr, pr ∈ st.2 ↔ ∃ m, m ∈ st.1 ∧ pair_of m = pr;
  c_nodup : NoDup (pair_of <$> st.1);
  c_sound : ∀ m, m ∈ st.1 → well_ranked m;
  c_origin : ∀ m, m ∈ st.1 → ∃ a b, (a, b) ∈ V ∧ sorted_pair a b = pair_of m;
  c_complete : ∀ a b, (a, b) ∈ V → dict_mem a (their b) = true →
                      sorted_pair a b ∈ st.2
}.

Lemma consistent_start : consistent [] ([], ∅).
Proof.
  split; simpl.
  - intros pr. split; [set_solver|]. by intros (? & ?%elem_of_nil & _).
  - constructor.
  - by intros ? ?%elem_of_nil.
  - by intros ? ?%elem_of_nil.
  - by intros ? ? ?%elem_of_nil.
Qed.

Lemma consistent_skip V st a b :
  consistent V st →
  (dict_mem a (their b) = true → sorted_pair a b ∈ st.2) →
  consistent (V ++ [(a, b)]) st.
Proof.
  intros [Hs Hn Hw Ho Hc] Hab. split; try done.
  - intros m Hm. destruct (Ho m Hm) as (a' & b' & HV & Heq).
    exists a', b'. split; [|done]. apply elem_of_app. by left.
  - intros a' b' [HV|Hin%list_elem_of_singleton]%elem_of_app Hmem; [by apply Hc|].
    injection Hin as -> ->. by apply Hab.
Qed.

Lemma consistent_record V st a b m :
  consistent V st →
  sorted_pair a b ∉ st.2 →
  pair_of m = sorted_pair a b →
  well_ranked m →
  consistent (V ++ [(a, b)]) (st.1 ++ [m], {[sorted_pair a b]} ∪ st.2).
Proof.
  intros [Hs Hn Hw Ho Hc] Hnew Hm Hr. split; simpl.
  - intros pr. rewrite elem_of_union, elem_of_singleton, Hs. split.
    + intros [->|(m' & Hm' & Hpr)].
      * exists m. split; [|done]. apply elem_of_app. right. by left.
      * exists m'. split; [|done]. apply elem_of_app. by left.
    + intros (m' & [Hm'|Hm'%list_elem_of_singleton]%elem_of_app & Hpr).
      * right. by exists m'.
      * left. congruence.
  - rewrite fmap_app. apply NoDup_app. split; [done|]. split.
    + intros pr (m' & -> & Hm')%list_elem_of_fmap Hin%list_elem_of_singleton.
      apply Hnew, Hs. exists m'. split; [done|]. congruence.
    + apply NoDup_singleton.
  - intros m' [Hm'|Hm'%list_elem_of_singleton]%elem_of_app;
      [by apply Hw|by subst].
  - intros m' [Hm'|Hm'%list_elem_of_singleton]%elem_of_app; [|subst m'].
    + destruct (Ho m' Hm') as (a' & b' & HV & Heq).
      exists a', b'. split; [|done]. apply elem_of_app. by left.
    + exists a, b. split; [|done]. apply elem_of_app. right. by left.
  - intros a' b' [HV|Hin%list_elem_of_singleton]%elem_of_app Hmem;
      apply elem_of_union.
    + right. by apply Hc.
    + injection Hin as -> ->. left. by apply elem_of_singleton.
Qed.

(** Lines 32-51 make no store call and keep the invariant. *)
Lemma record_if_mutual_step V st a b :
  consistent V st →
  b ∈ dict_keys (their a) →
  ∃ st', Reads P S (record_if_mutual a (their a) (their b) st b) 0 st'
         ∧ consistent (V ++ [(a, b)]) st'.
Proof.
  intros Hc [rab Hab]%dict_keys_get. unfold record_if_mutual.
  destruct (dict_mem a (their b)) eqn:Hmem.
  - apply dict_mem_get in Hmem as Hba. destruct Hba as [rba Hba].
    destruct (decide (sorted_pair a b ∈ st.2)) as [Hin|Hnew].
    + exists st. split; [apply Reads_ret|]. by apply consistent_skip.
    + unfold sorted_pair in *. destruct (Z.ltb_spec b a) as [Hlt|Hle]; simpl.
      * destruct (Z.eqb_spec b a) as [?|_]; [lia|].
        exists (st.1 ++ [mkMatch b a rba rab], {[(b, a)]} ∪ st.2). split.
        -- apply (Reads_bind _ _ _ _ 0 0 (rba, rab)); [|apply Reads_ret].
           apply (Reads_bind _ _ _ _ 0 0 rba); [by apply Reads_getitem|].
           apply (Reads_bind _ _ _ _ 0 0 rab); [by apply Reads_getitem|].
           apply Reads_ret.
        -- pose proof (consistent_record V st a b (mkMatch b a rba rab) Hc) as H.
           unfold sorted_pair in H.
           destruct (Z.ltb_spec b a); [|lia].
           apply H; [done|done|]. repeat split; simpl; [lia|done|done].
      * rewrite Z.eqb_refl.
        exists (st.1 ++ [mkMatch a b rab rba], {[(a, b)]} ∪ st.2). split.
        -- apply (Reads_bind _ _ _ _ 0 0 (rab, rba)); [|apply Reads_ret].
           apply (Reads_bind _ _ _ _ 0 0 rab); [by apply Reads_getitem|].
           apply (Reads_bind _ _ _ _ 0 0 rba); [by apply Reads_getitem|].
           apply Reads_ret.
        -- pose proof (consistent_record V st a b (mkMatch a b rab rba) Hc) as H.
           unfold sorted_pair in H.
           destruct (Z.ltb_spec b a); [lia|].
           apply H; [done|done|]. repeat split; simpl; [lia|done|done].
  - exists st. split; [apply Reads_ret|]. apply consistent_skip; [done|].
    by rewrite Hmem.
Qed.
Lemma check_selected_step V st a b :
  consistent V st →
  b ∈ dict_keys (their a) →
  ∃ st', Reads P S (check_selected a (their a) st b) 1 st'
         ∧ consistent (V ++ [(a, b)]) st'.
Proof.
  intros Hc Hb.
  destruct (record_if_mutual_step V st a b Hc Hb) as (st' & Hr & Hc').
  exists st'. split; [|done].
  apply (Reads_bind _ _ _ _ 1 0 (select_selections b S)); [|exact Hr].
  apply Reads_query. by intros d _ ->.
Qed.

(** The pairs one participant makes the inner loop go through. *)
Definition visits (a : Z) : list (Z * Z) :=
  (fun b => (a, b)) <$> dict_keys (their a).

Definition visited (ps : list Participant) : list (Z * Z) :=
  ps ≫= (fun p => visits (p_id p)).

Lemma check_participant_step V st p :
  consistent V st →
  ∃ n st', Reads P S (check_participant st p) n st'
           ∧ consistent (V ++ visits (p_id p)) st'.
Proof.
  intros Hc. unfold check_participant, visits. set (a := p_id p).
  destruct (Reads_for_each P S
              (fun pre st => consistent (V ++ ((fun b => (a, b)) <$> pre)) st)
              (check_selected a (their a)) (dict_keys (their a)) [] st)
    as (n & st' & Hr & Hc').
  - simpl. by rewrite app_nil_r.
  - intros pre b st1 Hb H1.
    destruct (check_selected_step _ st1 a b H1 Hb) as (st2 & Hr2 & Hc2).
    exists 1%nat, st2. split; [done|].
    by rewrite fmap_app, app_assoc.
  - exists (1 + n)%nat, st'. split; [|done].
    apply (Reads_bind _ _ _ _ 1 n (select_selections a S)); [|exact Hr].
    apply Reads_query. by intros d _ ->.
Qed.

Lemma check_all_participants ps :
  ∃ n st', Reads P S (for_each ps (([], ∅) : found) check_participant) n st'
           ∧ consistent (visited ps) st'.
Proof.
  destruct (Reads_for_each P S (fun pre st => consistent (visited pre) st)
              check_participant ps [] ([], ∅)) as (n & st' & Hr & Hc').
  - apply consistent_start.
  - intros pre p st1 _ H1.
    destruct (check_participant_step _ st1 p H1) as (n & st2 & Hr2 & Hc2).
    exists n, st2. split; [done|].
    unfold visited. rewrite bind_app. simpl. by rewrite app_nil_r.
  - by exists n, st'.
Qed.

Lemma elem_of_visited ps a b :
  (a, b) ∈ visited ps ↔ a ∈ p_id <$> ps ∧ is_Some (dict_get (their a) b).
Proof.
  unfold visited, visits. rewrite list_elem_of_bind. split.
  - intros (p & Hv & Hp). apply list_elem_of_fmap in Hv as (b' & Heq & Hb').
    injection Heq as -> ->. split; [by apply list_elem_of_fmap_2|].
    by apply dict_keys_get.
  - intros [(p & -> & Hp)%list_elem_of_fmap Hb]. exists p. split; [|done].
    apply list_elem_of_fmap. exists b. split; [done|]. by apply dict_keys_get.
Qed.

(** What the resolver returns for the participant list [ps]: the
    well-ranked records with at least one listed side, each pair once. *)
Record resolved (ps : list Participant) (ms : list Match) : Prop := {
  r_nodup : NoDup (pair_of <$> ms);
  r_elem : ∀ m, m ∈ ms ↔
                well_ranked m
                ∧ (participant1_id m ∈ p_id <$> ps
                   ∨ participant2_id m ∈ p_id <$> ps)
}.

Lemma well_ranked_inj m m' :
  well_ranked m → well_ranked m' → pair_of m' = pair_of m → m' = m.
Proof.
  destruct m, m'. unfold well_ranked, pair_of. simpl.
  intros (_ & H1 & H2) (_ & H1' & H2') [= -> ->]. congruence.
Qed.

Lemma consistent_resolved ps st : consistent (visited ps) st → resolved ps st.1.
Proof.
  intros [Hs Hn Hw Ho Hc]. split; [done|]. intros m. split.
  - intros Hm. split; [by apply Hw|].
    destruct (Ho m Hm) as (a & b & [Ha _]%elem_of_visited & Heq).
    unfold sorted_pair, pair_of in Heq.
    destruct (b <? a); injection Heq as <- <-; [by right|by left].
  - intros [Hr Hl].
    assert (pair_of m ∈ st.2) as (m' & Hm' & Heq)%Hs.
    { pose proof Hr as (Hle & H1 & H2). destruct Hl as [Hl|Hl].
      - replace (pair_of m)
          with (sorted_pair (participant1_id m) (participant2_id m)).
        + apply Hc; [apply elem_of_visited; eauto|]. apply dict_mem_get; eauto.
        + unfold sorted_pair, pair_of. by destruct (Z.ltb_spec (participant2_id m) (participant1_id m)); [lia|].
      - replace (pair_of m)
          with (sorted_pair (participant2_id m) (participant1_id m)).
        + apply Hc; [apply elem_of_visited; eauto|]. apply dict_mem_get; eauto.
        + unfold sorted_pair, pair_of.
          destruct (Z.ltb_spec (participant1_id m) (participant2_id m)); [done|].
          f_equal; lia. }
    by rewrite <- (well_ranked_inj m m' Hr (Hw m' Hm') Heq).
Qed.

Lemma mutual_matches_among_resolved ps :
  ∃ n ms, Reads P S (mutual_matches_among ps) n ms ∧ resolved ps ms.
Proof.
  destruct (check_all_participants ps) as (n & st & Hr & Hc).
  exists (n + 0)%nat, st.1. split; [|by apply consistent_resolved].
  apply (Reads_bind _ _ _ _ n 0 st); [done|apply Reads_ret].
Qed.

Lemma resolved_ids ps ps' ms :
  (∀ a, a ∈ p_id <$> ps ↔ a ∈ p_id <$> ps') → resolved ps ms → resolved ps' ms.
Proof.
  intros Hids [Hn He]. split; [done|]. intros m. by rewrite He, !Hids.
Qed.

Lemma find_mutual_matches_resolved :
  ∃ n ms, Reads P S find_mutual_matches (1 + n) ms ∧ resolved P ms.
Proof.
  destruct (mutual_matches_among_resolved (select_all_participants P))
    as (n & ms & Hr & Hres).
  exists n, ms. split.
  - apply (Reads_bind _ _ _ _ 1 n (select_all_participants P)); [|done].
    apply Reads_query. by intros d -> _.
  - apply (resolved_ids (select_all_participants P)); [|done].
    intros a. unfold select_all_participants.
    rewrite !list_elem_of_fmap. by setoid_rewrite elem_of_order_by.
Qed.
End Resolver.

(** ** Selections and participants as the tables hold them *)

(** A stored selection (a → b). *)
Definition selects (d : Database) (a b : Z) : Prop :=
  ∃ row, row ∈ selections d ∧ s_selector_id row = a ∧ s_selected_id row = b.

(** A stored selection (a → b) carrying rank [r]. *)
Definition selects_with_rank (d : Database) (a b r : Z) : Prop :=
  ∃ row, row ∈ selections d ∧ s_selector_id row = a ∧ s_selected_id row = b
         ∧ s_rank row = r.

(** [a] is the id of a row of the participants table. *)
Definition listed (d : Database) (a : Z) : Prop :=
  ∃ p, p ∈ participants d ∧ p_id p = a.

(** The list holds a record for the unordered pair {a, b}. *)
Definition has_pair (ms : list Match) (a b : Z) : Prop :=
  ∃ m, m ∈ ms ∧ ((participant1_id m = a ∧ participant2_id m = b)
                 ∨ (participant1_id m = b ∧ participant2_id m = a)).

(** Two records for the same unordered pair. *)
Definition same_pair (m m' : Match) : Prop :=
  (participant1_id m = participant1_id m' ∧ participant2_id m = participant2_id m')
  ∨ (participant1_id m = participant2_id m' ∧ participant2_id m = participant1_id m').

(** No two positions of the list hold records for the same unordered pair. *)
Definition pairs_once (ms : list Match) : Prop :=
  ∀ i j m m', ms !! i = Some m → ms !! j = Some m' → same_pair m m' → i = j.

Lemma elem_of_select_selections a S sel :
  sel ∈ select_selections a S ↔
  ∃ row, row ∈ S ∧ s_selector_id row = a
         ∧ sel = mkSelection (s_selected_id row) (s_rank row).
Proof.
  unfold select_selections. rewrite list_elem_of_fmap.
  setoid_rewrite elem_of_order_by. setoid_rewrite list_elem_of_filter.
  split; intros (row & H); exists row; tauto.
Qed.

Lemma their_selects d a b :
  is_Some (dict_get (their (selections d) a) b) ↔ selects d a b.
Proof.
  unfold their, selections_dict, selects. rewrite selections_dict_from. split.
  - intros [[? [=]]|(sel & (row & Hrow & Ha & ->)%elem_of_select_selections & Hb)].
    by exists row.
  - intros (row & Hrow & Ha & Hb). right.
    exists (mkSelection (s_selected_id row) (s_rank row)). split; [|done].
    apply elem_of_select_selections. by exists row.
Qed.

Lemma their_rank d a b r :
  dict_get (their (selections d) a) b = Some r → selects_with_rank d a b r.
Proof.
  unfold their, selections_dict. intros [[=]|(sel & Hsel & Hb & Hr)]%selections_dict_value.
  apply elem_of_select_selections in Hsel as (row & Hrow & Ha & ->).
  by exists row.
Qed.

Lemma elem_of_ids d a : a ∈ p_id <$> participants d ↔ listed d a.
Proof.
  unfold listed. rewrite list_elem_of_fmap.
  split; intros (p & H1 & H2); exists p; by split.
Qed.


Lemma resolved_pairs_once S ps ms : resolved S ps ms → pairs_once ms.
Proof.
  intros [Hn He] i j m m' Hi Hj Hsame.
  assert (pair_of m = pair_of m') as Heq.
  { assert (well_ranked S m) as (Hle & _) by (eapply He, list_elem_of_lookup_2, Hi).
    assert (well_ranked S m') as (Hle' & _) by (eapply He, list_elem_of_lookup_2, Hj).
    unfold pair_of. destruct Hsame as [[-> ->]|[H1 H2]]; [done|].
    f_equal; lia. }
  eapply NoDup_lookup; [exact Hn| |];
    rewrite list_lookup_fmap; [by rewrite Hi|by rewrite Hj, Heq].
Qed.

Lemma resolved_has_pair d ps ms a b :
  resolved (selections d) ps ms →
  has_pair ms a b ↔
  selects d a b ∧ selects d b a ∧ (a ∈ p_id <$> ps ∨ b ∈ p_id <$> ps).
Proof.
  intros [Hn He]. split.
  - intros (m & [Hw Hl]%He & Hab). destruct Hw as (Hle & H1 & H2).
    assert (selects d (participant1_id m) (participant2_id m)) by (apply their_selects; eauto).
    assert (selects d (participant2_id m) (participant1_id m)) by (apply their_selects; eauto).
    destruct Hab as [[<- <-]|[<- <-]]; tauto.
  - intros ([rab Hab]%their_selects & [rba Hba]%their_selects & Hl).
    destruct (Z.le_gt_cases a b).
    + exists (mkMatch a b rab rba). split; [|by left].
      apply He. by repeat split.
    + exists (mkMatch b a rba rab). split; [|by right].
      apply He. repeat split; simpl; [lia|done|done|tauto].
Qed.

(** [find_mutual_matches] on a store that never fails: it returns, leaves
    the store alone, and its value is characterised by [resolved]. *)
Lemma find_mutual_matches_returns d :
  ∃ ms, find_mutual_matches (reliable d) = (inr ms, reliable d)
        ∧ resolved (selections d) (participants d) ms.
Proof.
  destruct (find_mutual_matches_resolved (participants d) (selections d))
    as (n & ms & Hr & Hres).
  exists ms. split; [|done]. by eapply Reads_reliable.
Qed.

Lemma mutual_matches_among_returns d ps :
  ∃ ms, mutual_matches_among ps (reliable d) = (inr ms, reliable d)
        ∧ resolved (selections d) ps ms.
Proof.
  destruct (mutual_matches_among_resolved (participants d) (selections d) ps)
    as (n & ms & Hr & Hres).
  exists ms. split; [|done]. by eapply Reads_reliable.
Qed.

(** * The resolver's contract *)


(** Three participants, two mutual pairs, and one stale match left over
    from an earlier run. *)
Definition db_two_pairs : Database :=
  mkDatabase
    [mkParticipant 1 "A" "male" "a@x" "t1";
     mkParticipant 2 "B" "female" "b@x" "t2";
     mkParticipant 3 "C" "male" "c@x" "t3"]
    [mkSelectionRow 1 1 2 1; mkSelectionRow 2 2 1 1;
     mkSelectionRow 3 2 3 2; mkSelectionRow 4 3 2 1]
    [mkMatchRow 1 (mkMatch 1 3 2 2)]
    1.

(** One participant who selected herself. *)
Definition db_self : Database :=
  mkDatabase [mkParticipant 3 "C" "female" "c@x" "t3"]
             [mkSelectionRow 1 3 3 7] [] 0.

(** The resolver on [db_two_pairs]: the two disjoint mutual pairs, each
    once. *)
Example two_pairs_found :
  find_mutual_matches (reliable db_two_pairs)
  = (inr [mkMatch 1 2 1 1; mkMatch 2 3 2 1], reliable db_two_pairs).
Proof. reflexivity. Qed.

(** A one-sided selection gives no match. *)
Example one_sided_selection_no_match :
  find_mutual_matches
    (reliable (mkDatabase [mkParticipant 1 "A" "male" "a@x" "t1";
                           mkParticipant 2 "B" "female" "b@x" "t2"]
                          [mkSelectionRow 1 1 2 1] [] 0))
  = (inr [],
     reliable (mkDatabase [mkParticipant 1 "A" "male" "a@x" "t1";
                           mkParticipant 2 "B" "female" "b@x" "t2"]
                          [mkSelectionRow 1 1 2 1] [] 0)).
Proof. reflexivity. Qed.

(** A full run on [db_two_pairs]: the stale match is gone, the two new
    ones take the next ids. *)
Example two_pairs_run :
  run_matching_algorithm (reliable db_two_pairs)
  = (inr 2%nat,
     reliable (mkDatabase (participants db_two_pairs) (selections db_two_pairs)
                          [mkMatchRow 2 (mkMatch 1 2 1 1);
                           mkMatchRow 3 (mkMatch 2 3 2 1)] 3)).
Proof. reflexivity. Qed.



(** C2: the list returned by [find_mutual_matches] holds each unordered
    pair at most once, and so does the list computed from the
    participants taken in any other order [ps]. *)
Theorem find_mutual_matches_pairs_once (d : Database) :
  (∃ ms, find_mutual_matches (reliable d) = (inr ms, reliable d)
         ∧ pairs_once ms)
  ∧ (∀ ps, ∃ ms, mutual_matches_among ps (reliable d) = (inr ms, reliable d)
                 ∧ pairs_once ms).
Proof.
  split.
  - destruct (find_mutual_matches_returns d) as (ms & Hrun & Hres).
    exists ms. eauto using resolved_pairs_once.
  - intros ps. destruct (mutual_matches_among_returns d ps) as (ms & Hrun & Hres).
    exists ms. eauto using resolved_pairs_once.
Qed.


(** With UNIQUE(selector_id, selected_id) the rank of a selection is the
    only one stored for it, so the ranks of C3 are the ranks assigned. *)
Definition unique_selections (d : Database) : Prop :=
  ∀ row row', row ∈ selections d → row' ∈ selections d →
              s_selector_id row = s_selector_id row' →
              s_selected_id row = s_selected_id row' →
              s_rank row = s_rank row'.

Lemma selects_with_rank_unique d a b r r' :
  unique_selections d →
  selects_with_rank d a b r → selects_with_rank d a b r' → r = r'.
Proof.
  intros Hu (row & Hrow & Ha & Hb & <-) (row' & Hrow' & Ha' & Hb' & <-).
  apply Hu; congruence.
Qed.

(** A rank of 0 is recorded like any other. *)
Example rank_zero_passes_through :
  find_mutual_matches
    (reliable (mkDatabase [mkParticipant 1 "A" "male" "a@x" "t1";
                           mkParticipant 2 "B" "female" "b@x" "t2"]
                          [mkSelectionRow 1 1 2 0; mkSelectionRow 2 2 1 3] [] 0))
  = (inr [mkMatch 1 2 0 3],
     reliable (mkDatabase [mkParticipant 1 "A" "male" "a@x" "t1";
                           mkParticipant 2 "B" "female" "b@x" "t2"]
                          [mkSelectionRow 1 1 2 0; mkSelectionRow 2 2 1 3] [] 0)).
Proof. reflexivity. Qed.

Lemma resolved_NoDup S ps ms : resolved S ps ms → NoDup ms.
Proof. intros [Hn _]. by eapply NoDup_fmap_1. Qed.

(** C6: permuting the participant list leaves the set of records (pairs
    with their rank1 and rank2) unchanged: the two results are
    permutations of each other. *)
Theorem mutual_matches_among_Permutation (d : Database) (ps ps' : list Participant) :
  ps ≡ₚ ps' →
  ∃ ms ms', mutual_matches_among ps (reliable d) = (inr ms, reliable d)
            ∧ mutual_matches_among ps' (reliable d) = (inr ms', reliable d)
            ∧ ms ≡ₚ ms'
            ∧ ∀ m, m ∈ ms ↔ m ∈ ms'.
Proof.
  intros Hperm.
  destruct (mutual_matches_among_returns d ps) as (ms & Hrun & Hres).
  destruct (mutual_matches_among_returns d ps') as (ms' & Hrun' & Hres').
  exists ms, ms'. split; [done|]. split; [done|].
  assert (∀ m, m ∈ ms ↔ m ∈ ms') as Hset.
  { intros m. rewrite (r_elem _ _ _ Hres), (r_elem _ _ _ Hres').
    by setoid_rewrite Hperm. }
  split; [|done].
  apply NoDup_Permutation; eauto using resolved_NoDup.
Qed.

Lemma mutual_matches_among_Permutation_witness :
  participants db_two_pairs ≡ₚ reverse (participants db_two_pairs)
  ∧ ∃ ms ms',
      mutual_matches_among (participants db_two_pairs) (reliable db_two_pairs)
      = (inr ms, reliable db_two_pairs)
      ∧ mutual_matches_among (reverse (participants db_two_pairs))
                             (reliable db_two_pairs)
        = (inr ms', reliable db_two_pairs)
      ∧ ms ≡ₚ ms'
      ∧ ∀ m, m ∈ ms ↔ m ∈ ms'.
Proof.
  split; [symmetry; apply reverse_Permutation|].
  apply (mutual_matches_among_Permutation db_two_pairs).
  symmetry. apply reverse_Permutation.
Defined.

(** C9: a listed participant [a] with a stored selection (a → a) gets the
    self-pair record: participant1_id = participant2_id = a and
    rank1 = rank2 = the rank of that selection. *)
Theorem find_mutual_matches_self_pair (d : Database) (a : Z) :
  listed d a → selects d a a →
  ∃ ms r, find_mutual_matches (reliable d) = (inr ms, reliable d)
          ∧ mkMatch a a r r ∈ ms
          ∧ selects_with_rank d a a r.
Proof.
  intros Hl [r Hr]%their_selects.
  destruct (find_mutual_matches_returns d) as (ms & Hrun & [_ He]).
  exists ms, r. split; [done|]. split; [|by apply their_rank].
  apply He. split; [by repeat split|]. left. by apply elem_of_ids.
Qed.

Lemma find_mutual_matches_self_pair_witness :
  listed db_self 3 ∧ selects db_self 3 3
  ∧ ∃ ms r, find_mutual_matches (reliable db_self) = (inr ms, reliable db_self)
            ∧ mkMatch 3 3 r r ∈ ms
            ∧ selects_with_rank db_self 3 3 r.
Proof.
  assert (listed db_self 3) as Hl.
  { exists (mkParticipant 3 "C" "female" "c@x" "t3"). split; [left|reflexivity]. }
  assert (selects db_self 3 3) as Hs.
  { exists (mkSelectionRow 1 3 3 7). split; [left|]. split; reflexivity. }
  split; [exact Hl|]. split; [exact Hs|].
  exact (find_mutual_matches_self_pair db_self 3 Hl Hs).
Defined.

(** C10: a record for {a,b} is returned only if a or b is listed, so two
    unlisted ids that select each other give no record; when every
    selector is listed, the records are exactly the mutual selections. *)
Theorem find_mutual_matches_needs_listed (d : Database) (a b : Z) :
  ∃ ms, find_mutual_matches (reliable d) = (inr ms, reliable d)
        ∧ (has_pair ms a b → listed d a ∨ listed d b)
        ∧ (selects d a b ∧ selects d b a ∧ ¬ listed d a ∧ ¬ listed d b →
           ¬ has_pair ms a b)
        ∧ ((∀ x y, selects d x y → listed d x) →
           (has_pair ms a b ↔ selects d a b ∧ selects d b a)).
Proof.
  destruct (find_mutual_matches_returns d) as (ms & Hrun & Hres).
  exists ms. split; [done|].
  pose proof (resolved_has_pair d _ ms a b Hres) as Hiff.
  rewrite !elem_of_ids in Hiff. split; [|split].
  - intros Hp. apply Hiff in Hp. tauto.
  - intros (_ & _ & Ha & Hb) Hp. apply Hiff in Hp. tauto.
  - intros Hall. rewrite Hiff. split; [tauto|].
    intros [Hab Hba]. eauto.
Qed.

(** * Running the matching *)

(** The tables after the insert loop of [run_matching_algorithm] went
    through [ms]. *)
Definition insert_all (ms : list Match) (d : Database) : Database :=
  fold_left (fun d' m => insert_match m d') ms d.

(** The loop of lines 67-73. *)
Definition add_matches (ms : list Match) : M unit :=
  for_each ms tt
    (fun _ m => add_match (participant1_id m) (participant2_id m)
                          (rank1 m) (rank2 m)).

Lemma insert_all_tables ms d :
  participants (insert_all ms d) = participants d
  ∧ selections (insert_all ms d) = selections d
  ∧ m_columns <$> matches (insert_all ms d) = (m_columns <$> matches d) ++ ms
  ∧ matches_seq (insert_all ms d) = matches_seq d + Z.of_nat (length ms).
Proof.
  revert d. induction ms as [|m ms IH]; intros d; simpl.
  - rewrite app_nil_r. repeat split. lia.
  - destruct (IH (insert_match m d)) as (HP & HS & HM & Hq).
    fold (insert_all ms (insert_match m d)).
    rewrite HP, HS, HM, Hq. simpl. rewrite fmap_app. simpl.
    rewrite <- app_assoc. repeat split. lia.
Qed.

(** The insert loop under any fault schedule: every insert that the
    schedule lets through is committed on its own, and a fault stops the
    loop where it stands. *)
Lemma add_matches_outcome ms d fl :
  add_matches ms (mkStore d fl) =
  match fl with
  | None => (inr tt, reliable (insert_all ms d))
  | Some k =>
      if (length ms <=? k)%nat
      then (inr tt, mkStore (insert_all ms d) (Some (k - length ms)%nat))
      else (inl OperationalError, mkStore (insert_all (take k ms) d) (Some 0%nat))
  end.
Proof.
  unfold add_matches. revert d fl.
  induction ms as [|m ms IH]; intros d fl.
  - destruct fl as [k|]; simpl; [|done]. by rewrite Nat.sub_0_r.
  - destruct m as [p1 p2 r1 r2].
    destruct fl as [[|k]|]; simpl; unfold bind, add_match, execute; simpl.
    + done.
    + rewrite IH. done.
    + rewrite IH. done.
Qed.

Section Run.
Variable d : Database.
(** The value of [find_mutual_matches] on the tables of [d] and the
    number of store calls it makes after the first. *)
Variable ms : list Match.
Variable n : nat.
Hypothesis Hfind :
  Reads (participants d) (selections d) find_mutual_matches (1 + n) ms.

(** The number of store calls of a full run. *)
Definition calls : nat := (2 + n + length ms)%nat.

Definition run_outcome (fl : option nat) : (exn + nat) * Store :=
  match fl with
  | None => (inr (length ms), reliable (insert_all ms (delete_matches d)))
  | Some k =>
      if (k <? 1)%nat then
        (inl OperationalError, mkStore d (Some 0%nat))
      else if (k <? 2 + n)%nat then
        (inl OperationalError, mkStore (delete_matches d) (Some 0%nat))
      else if (k <? calls)%nat then
        (inl OperationalError,
         mkStore (insert_all (take (k - (2 + n)) ms) (delete_matches d)) (Some 0%nat))
      else
        (inr (length ms),
         mkStore (insert_all ms (delete_matches d)) (Some (k - calls)%nat))
  end.

Lemma run_matching_algorithm_outcome fl :
  run_matching_algorithm (mkStore d fl) = run_outcome fl.
Proof.
  unfold run_matching_algorithm, clear_matches.
  change (for_each ?l tt _) with (add_matches l).
  unfold bind at 1. unfold execute, run_outcome, calls. cbn [faults db].
  destruct fl as [[|k]|]; [done| |].
  - unfold bind at 1.
    rewrite (Hfind (mkStore (delete_matches d) (Some k))); [|done|done].
    unfold after_reads. cbn [covers spend faults db].
    destruct (Nat.ltb_spec (S k) 1); [lia|].
    destruct (Nat.leb_spec (1 + n) k), (Nat.ltb_spec (S k) (2 + n)); try lia.
    2: done.
    unfold bind. rewrite add_matches_outcome.
    destruct (Nat.leb_spec (length ms) (k - (1 + n))),
             (Nat.ltb_spec (S k) (2 + n + length ms)); try lia.
    + unfold ret.
      by replace (S k - (2 + n + length ms))%nat
        with (k - (1 + n) - length ms)%nat by lia.
    + by replace (S k - (2 + n))%nat with (k - (1 + n))%nat by lia.
  - unfold bind at 1.
    rewrite (Hfind (mkStore (delete_matches d) None)); [|done|done].
    unfold after_reads. cbn [covers spend faults db].
    unfold bind. by rewrite add_matches_outcome.
Qed.
End Run.

(** [find_mutual_matches] reads the tables of [d] with a fixed number of
    store calls, whatever the matches table holds. *)
Lemma find_mutual_matches_reads d :
  ∃ n ms, Reads (participants d) (selections d) find_mutual_matches (1 + n) ms
          ∧ find_mutual_matches (reliable d) = (inr ms, reliable d)
          ∧ resolved (selections d) (participants d) ms.
Proof.
  destruct (find_mutual_matches_resolved (participants d) (selections d))
    as (n & ms & Hr & Hres).
  exists n, ms. split; [done|]. split; [|done]. by eapply Reads_reliable.
Qed.

Lemma run_outcome_returns d ms n fl r s' :
  run_outcome d ms n fl = (inr r, s') →
  r = length ms ∧ db s' = insert_all ms (delete_matches d).
Proof.
  unfold run_outcome. destruct fl as [k|].
  - repeat case_match; intros [= <- <-]; done.
  - intros [= <- <-]; done.
Qed.

Lemma resolved_no_selection S ps ms :
  (∀ a b, ¬ (is_Some (dict_get (their S a) b) ∧ is_Some (dict_get (their S b) a))) →
  resolved S ps ms → ms = [].
Proof.
  intros Hno [_ He]. destruct ms as [|m ms]; [done|]. exfalso.
  assert (well_ranked S m) as (_ & H1 & H2) by (apply He; left).
  apply (Hno (participant1_id m) (participant2_id m)); eauto.
Qed.

(** C4: two runs in a row on a store that does not fail return the same
    count and leave the same records in the matches table, ids apart. *)
Theorem run_matching_algorithm_idempotent (d : Database) :
  ∃ n d1 d2,
    run_matching_algorithm (reliable d) = (inr n, reliable d1)
    ∧ run_matching_algorithm (reliable d1) = (inr n, reliable d2)
    ∧ m_columns <$> matches d1 = m_columns <$> matches d2.
Proof.
  destruct (find_mutual_matches_reads d) as (n & ms & Hr & _ & _).
  set (d1 := insert_all ms (delete_matches d)).
  destruct (insert_all_tables ms (delete_matches d)) as (HP & HS & HM & _).
  assert (Reads (participants d1) (selections d1) find_mutual_matches (1 + n) ms)
    as Hr1 by (unfold d1; by rewrite HP, HS).
  exists (length ms), d1, (insert_all ms (delete_matches d1)).
  split; [exact (run_matching_algorithm_outcome d ms n Hr None)|].
  split; [exact (run_matching_algorithm_outcome d1 ms n Hr1 None)|].
  destruct (insert_all_tables ms (delete_matches d1)) as (_ & _ & HM1 & _).
  unfold d1 at 1. by rewrite HM, HM1.
Qed.

(** C5: a run that returns leaves in the matches table exactly the
    records [find_mutual_matches] computes, none of the prior ones, and
    leaves participants and selections as they were; with an empty
    selections table it leaves no match, whatever was there before. *)
Theorem run_matching_algorithm_replaces_matches :
  (∀ d, ∃ ms d',
     find_mutual_matches (reliable d) = (inr ms, reliable d)
     ∧ run_matching_algorithm (reliable d) = (inr (length ms), reliable d')
     ∧ m_columns <$> matches d' = ms
     ∧ participants d' = participants d
     ∧ selections d' = selections d
     ∧ ∀ fl n s', run_matching_algorithm (mkStore d fl) = (inr n, s') → db s' = d')
  ∧ (∀ table prior seq, ∃ d',
       run_matching_algorithm (reliable (mkDatabase table [] prior seq))
       = (inr 0%nat, reliable d')
       ∧ matches d' = []
       ∧ participants d' = table
       ∧ selections d' = []).
Proof.
  split.
  - intros d. destruct (find_mutual_matches_reads d) as (n & ms & Hr & Hrun & _).
    exists ms, (insert_all ms (delete_matches d)).
    destruct (insert_all_tables ms (delete_matches d)) as (HP & HS & HM & _).
    split; [done|].
    split; [exact (run_matching_algorithm_outcome d ms n Hr None)|].
    repeat split; try done.
    intros fl r s'. rewrite (run_matching_algorithm_outcome d ms n Hr).
    by intros [_ ?]%run_outcome_returns.
  - intros table prior seq. set (d := mkDatabase table [] prior seq).
    destruct (find_mutual_matches_reads d) as (n & ms & Hr & _ & Hres).
    assert (ms = []) as ->.
    { eapply resolved_no_selection; [|exact Hres].
      intros a b [[row [Hrow%elem_of_nil _]]%their_selects _]. done. }
    exists (delete_matches d).
    split; [exact (run_matching_algorithm_outcome d [] n Hr None)|done].
Qed.

(** C7: the value returned is the number of rows the run inserted, which
    are all the rows of the matches table afterwards; without mutual
    selections the run returns 0 like any other count. *)
Theorem run_matching_algorithm_count (d : Database) :
  ∃ n d',
    run_matching_algorithm (reliable d) = (inr n, reliable d')
    ∧ length (matches d') = n
    ∧ matches_seq d' = matches_seq d + Z.of_nat n
    ∧ ((∀ a b, ¬ (selects d a b ∧ selects d b a)) → n = 0%nat)
    ∧ ∀ fl n' s', run_matching_algorithm (mkStore d fl) = (inr n', s') → n' = n.
Proof.
  destruct (find_mutual_matches_reads d) as (n & ms & Hr & _ & Hres).
  exists (length ms), (insert_all ms (delete_matches d)).
  destruct (insert_all_tables ms (delete_matches d)) as (_ & _ & HM & Hq).
  split; [exact (run_matching_algorithm_outcome d ms n Hr None)|].
  split; [by rewrite <- (length_fmap m_columns), HM|].
  split; [done|]. split.
  - intros Hno. replace ms with (@nil Match); [done|]. symmetry.
    eapply resolved_no_selection; [|exact Hres].
    intros a b [Hab%their_selects Hba%their_selects]. by apply (Hno a b).
  - intros fl r s'. rewrite (run_matching_algorithm_outcome d ms n Hr).
    by intros [? _]%run_outcome_returns.
Qed.

(** ** Faults during a run *)

(** C8, as stated, fails: when the store fails at the second insert the
    run aborts, and the matches table is left holding the first new record
    alone: neither what it held before, nor nothing, nor the full result. *)
Lemma fault_leaves_partial_matches :
  ∃ ms s',
    find_mutual_matches (reliable db_two_pairs) = (inr ms, reliable db_two_pairs)
    ∧ run_matching_algorithm (mkStore db_two_pairs (Some 10%nat))
      = (inl OperationalError, s')
    ∧ matches (db s') = [mkMatchRow 2 (mkMatch 1 2 1 1)]
    ∧ matches (db s') ≠ matches db_two_pairs
    ∧ matches (db s') ≠ []
    ∧ m_columns <$> matches (db s') ≠ ms.
Proof.
  exists [mkMatch 1 2 1 1; mkMatch 2 3 2 1],
         (mkStore (mkDatabase (participants db_two_pairs) (selections db_two_pairs)
                              [mkMatchRow 2 (mkMatch 1 2 1 1)] 2)
                  (Some 0%nat)).
  split; [by vm_compute|]. split; [by vm_compute|]. simpl.
  repeat split; discriminate.
Qed.

(** C8 (amended): with [calls] store calls needed and the store failing
    after [k < calls] of them, the run aborts with the store's failure and
    returns no count; participants and selections are untouched, and the
    matches table is either untouched or holds, in place of the prior
    records, a prefix of this run's records.  With [k >= calls] the run
    returns the count. *)
Theorem run_matching_algorithm_fault (d : Database) :
  ∃ ms total,
    find_mutual_matches (reliable d) = (inr ms, reliable d)
    ∧ (2 ≤ total)%nat
    ∧ ∀ k : nat,
        ((k < total)%nat →
         ∃ d', run_matching_algorithm (mkStore d (Some k))
               = (inl OperationalError, mkStore d' (Some 0%nat))
               ∧ participants d' = participants d
               ∧ selections d' = selections d
               ∧ (d' = d ∨ ∃ j, m_columns <$> matches d' = take j ms))
        ∧ ((total ≤ k)%nat →
           ∃ d', run_matching_algorithm (mkStore d (Some k))
                 = (inr (length ms), mkStore d' (Some (k - total)%nat))).
Proof.
  destruct (find_mutual_matches_reads d) as (n & ms & Hr & Hrun & _).
  exists ms, (calls ms n). split; [done|]. split; [unfold calls; lia|].
  intros k. rewrite (run_matching_algorithm_outcome d ms n Hr).
  unfold run_outcome.
  destruct (Nat.ltb_spec k 1), (Nat.ltb_spec k (2 + n)),
    (Nat.ltb_spec k (calls ms n)); unfold calls in *; try lia.
  - split; [|lia]. intros _. exists d. repeat split. by left.
  - split; [|lia]. intros _. exists (delete_matches d). repeat split.
    right. by exists 0%nat.
  - split; [|lia]. intros _.
    exists (insert_all (take (k - (2 + n)) ms) (delete_matches d)).
    destruct (insert_all_tables (take (k - (2 + n)) ms) (delete_matches d))
      as (HP & HS & HM & _).
    repeat split; try done. right. exists (k - (2 + n))%nat. by rewrite HM.
  - split; [lia|]. intros _. eauto.
Qed.

(** * The rest of [database.py]

    The functions below bind integers that come from outside the
    database (a CSV row, a request body) to SQL parameters.  They are
    modelled for the integers SQLite stores, [sqlite_int]; beyond that
    range the [sqlite3] module refuses the parameter. *)

Definition sqlite_int (z : Z) : Prop := - 2 ^ 63 ≤ z < 2 ^ 63.

(** INSERT under a constraint: one store call that reads the tables, may
    replace them, and returns a value; nothing is read or written when the
    call raises. *)
Definition transact {A} (f : Database -> A * Database) : M A :=
  fun s =>
    match faults s with
    | None => (inr (f (db s)).1, mkStore (f (db s)).2 None)
    | Some O => (inl OperationalError, s)
    | Some (S k) => (inr (f (db s)).1, mkStore (f (db s)).2 (Some k))
    end.

Definition insert_participant (p : Participant) (d : Database) : Database :=
  mkDatabase (participants d ++ [p]) (selections d) (matches d) (matches_seq d).

(** [add_participant].  [token] is the value [generate_unique_token]
    returned, drawn from the system's random source.  The INSERT raises
    [sqlite3.IntegrityError], answered with [None], when the id (PRIMARY
    KEY) or the token (UNIQUE) is already in the table. *)
Definition add_participant (token : string) (participant_id : Z)
    (first_name gender email : string) : M (option string) :=
  transact (fun d =>
    if decide (participant_id ∈ p_id <$> participants d
               ∨ token ∈ p_unique_token <$> participants d)
    then (None, d)
    else (Some token,
          insert_participant
            (mkParticipant participant_id first_name gender email token) d)).

(** The dictionary of [get_participant_by_token]: id, first_name, gender. *)
Record ParticipantInfo := mkParticipantInfo {
  i_id : Z;
  i_first_name : string;
  i_gender : string
}.

(** SELECT id, first_name, gender FROM participants WHERE unique_token = ?
    followed by [fetchone]. *)
Definition select_participant_by_token (token : string)
    (table : list Participant) : option ParticipantInfo :=
  (fun p => mkParticipantInfo (p_id p) (p_first_name p) (p_gender p)) <$>
    head (filter (fun p => p_unique_token p = token) table).

Definition get_participant_by_token (token : string) : M (option ParticipantInfo) :=
  query (fun d => select_participant_by_token token (participants d)).

(** DELETE FROM selections WHERE selector_id = ? *)
Definition delete_selections (participant_id : Z) (d : Database) : Database :=
  mkDatabase (participants d)
             (filter (fun r => s_selector_id r ≠ participant_id) (selections d))
             (matches d) (matches_seq d).

Definition clear_selections (participant_id : Z) : M unit :=
  execute (delete_selections participant_id).

(** The three DELETEs of [clear_all_data], committed together.  A DELETE
    leaves the AUTOINCREMENT counters alone. *)
Definition delete_all (d : Database) : Database :=
  mkDatabase [] [] [] (matches_seq d).

Definition clear_all_data : M unit :=
  execute delete_all.

(** A row of [get_all_matches]. *)
Record MatchView := mkMatchView {
  v_id : Z;
  v_participant1_id : Z;
  v_name1 : string;
  v_participant2_id : Z;
  v_name2 : string;
  v_rank1 : Z;
  v_rank2 : Z
}.

(** The rows the two JOINs give for one match. *)
Definition join_participants (table : list Participant) (m : MatchRow)
    : list MatchView :=
  p1 ← filter (fun p => p_id p = participant1_id (m_columns m)) table;
  p2 ← filter (fun p => p_id p = participant2_id (m_columns m)) table;
  [mkMatchView (m_id m)
               (participant1_id (m_columns m)) (p_first_name p1)
               (participant2_id (m_columns m)) (p_first_name p2)
               (rank1 (m_columns m)) (rank2 (m_columns m))].

(** SELECT ... FROM matches m JOIN participants p1 ON ... JOIN
    participants p2 ON ... ORDER BY m.id *)
Definition select_all_matches (d : Database) : list MatchView :=
  order_by v_id (matches d ≫= join_participants (participants d)).

Definition get_all_matches : M (list MatchView) :=
  query select_all_matches.

(** ** The selections table's AUTOINCREMENT counter

    [add_selection] draws the id of a new row from the counter SQLite
    keeps for the selections table (at or above every id the table ever
    held), so the functions that insert selections run on a store that
    carries this counter as well.  No function reads the id back. *)

Record AppStore := mkAppStore {
  store : Store;
  selections_seq : Z
}.

Definition MA (A : Type) : Type := AppStore -> (exn + A) * AppStore.

Definition retA {A} (a : A) : MA A := fun s => (inr a, s).

Definition bindA {A B} (m : MA A) (f : A -> MA B) : MA B :=
  fun s =>
    match m s with
    | (inr a, s') => f a s'
    | (inl e, s') => (inl e, s')
    end.

(** A function of [database.py] that leaves the counter alone. *)
Definition lift {A} (m : M A) : MA A :=
  fun s => ((m (store s)).1, mkAppStore (m (store s)).2 (selections_seq s)).

Fixpoint for_eachA {A B} (l : list B) (acc : A) (body : A -> B -> MA A) : MA A :=
  match l with
  | [] => retA acc
  | x :: l' => bindA (body acc x) (fun acc' => for_eachA l' acc' body)
  end.

(** [try: body except Exception as e: handler e] *)
Definition try_except {A} (body : MA A) (handler : exn -> MA A) : MA A :=
  fun s =>
    match body s with
    | (inr a, s') => (inr a, s')
    | (inl e, s') => handler e s'
    end.

Definition insert_selection (row : SelectionRow) (d : Database) : Database :=
  mkDatabase (participants d) (selections d ++ [row]) (matches d) (matches_seq d).

(** The INSERT of [add_selection] on the tables and the counter: it
    raises [sqlite3.IntegrityError], answered with [False], when the
    table already holds a row for (selector_id, selected_id); otherwise
    the row takes the next id. *)
Definition try_insert_selection (selector_id selected_id rank : Z)
    (d : Database) (seq : Z) : bool * (Database * Z) :=
  if decide ((selector_id, selected_id)
             ∈ (fun r => (s_selector_id r, s_selected_id r)) <$> selections d)
  then (false, (d, seq))
  else (true,
        (insert_selection
           (mkSelectionRow (seq + 1) selector_id selected_id rank) d,
         seq + 1)).

Definition add_selection (selector_id selected_id rank : Z) : MA bool :=
  fun s =>
    let r := try_insert_selection selector_id selected_id rank
                                  (db (store s)) (selections_seq s) in
    match faults (store s) with
    | None => (inr r.1, mkAppStore (mkStore r.2.1 None) r.2.2)
    | Some O => (inl OperationalError, s)
    | Some (S k) => (inr r.1, mkAppStore (mkStore r.2.1 (Some k)) r.2.2)
    end.

(** * The routes of [app.py] *)

Notation "x <<- m ;; k" := (bindA m (fun x => k))
  (at level 100, m at next level, right associativity).

(** The JSON answers of the routes modelled below. *)
Inductive Response :=
| MatchesFound (n : nat)
| ServerError (e : exn)
| InvalidToken
| Submitted (n : nat)
| AllCleared
| MatchList (rows : list MatchView)
| ParticipantPage (participant : ParticipantInfo)
                  (available_participants : list (Z * string))
                  (current_selections : list Selection).

(** POST /api/admin/run-matching *)
Definition run_matching : MA Response :=
  try_except
    (num_matches <<- lift run_matching_algorithm ;;
     retA (MatchesFound num_matches))
    (fun e => retA (ServerError e)).

(** GET /api/admin/matches *)
Definition get_matches : MA Response :=
  found_matches <<- lift get_all_matches ;;
  retA (MatchList found_matches).

(** POST /api/admin/clear-all *)
Definition clear_all : MA Response :=
  try_except
    (_ <<- lift clear_all_data ;; retA AllCleared)
    (fun e => retA (ServerError e)).

(** ['female' if participant_gender == 'male' else 'male'] *)
Definition opposite_gender (participant_gender : string) : string :=
  if String.eqb participant_gender "male" then "female" else "male".

(** GET /api/participant/<token> *)
Definition get_participant (token : string) : MA Response :=
  participant <<- lift (get_participant_by_token token) ;;
  match participant with
  | None => retA InvalidToken
  | Some participant =>
      all_participants <<- lift get_all_participants ;;
      let available_participants :=
        (fun p => (p_id p, p_first_name p)) <$>
          filter (fun p => p_id p ≠ i_id participant
                           ∧ p_gender p = opposite_gender (i_gender participant))
                 all_participants in
      current_selections <<-
        lift (get_selections_by_participant (i_id participant)) ;;
      retA (ParticipantPage participant available_participants current_selections)
  end.

(** An element of the request's [selections] array: [id], and [rank]
    when the key is there. *)
Record SubmittedSelection := mkSubmittedSelection {
  sub_id : Z;
  sub_rank : option Z
}.

(** [selection.get('rank', 0)] *)
Definition rank_or_zero (selection : SubmittedSelection) : Z :=
  default 0 (sub_rank selection).

(** POST /api/participant/<token>/selections *)
Definition submit_selections (token : string)
    (submitted : list SubmittedSelection) : MA Response :=
  participant <<- lift (get_participant_by_token token) ;;
  match participant with
  | None => retA InvalidToken
  | Some participant =>
      try_except
        (_ <<- lift (clear_selections (i_id participant)) ;;
         _ <<- for_eachA submitted tt
                 (fun _ selection =>
                    _ <<- add_selection (i_id participant) (sub_id selection)
                                        (rank_or_zero selection) ;;
                    retA tt) ;;
         retA (Submitted (length submitted)))
        (fun e => retA (ServerError e))
  end.

(** * Properties of the store functions *)

(** ** ORDER BY sorts *)

Lemma insert_by_HdRel {A} (key : A → Z) y x l :
  key y ≤ key x →
  HdRel (fun a b => key a ≤ key b) y l →
  HdRel (fun a b => key a ≤ key b) y (insert_by key x l).
Proof.
  intros Hyx Hl. destruct l as [|z l]; simpl; [by constructor|].
  destruct (key z <? key x); constructor; [|done].
  by inversion Hl.
Qed.

Lemma insert_by_Sorted {A} (key : A → Z) x l :
  Sorted (fun a b => key a ≤ key b) l →
  Sorted (fun a b => key a ≤ key b) (insert_by key x l).
Proof.
  induction l as [|y l IH]; simpl; intros Hs.
  - by repeat constructor.
  - inversion Hs as [|? ? Hl Hhd]; subst.
    destruct (Z.ltb_spec (key y) (key x)).
    + constructor; [by apply IH|]. apply insert_by_HdRel; [lia|done].
    + constructor; [done|]. constructor. lia.
Qed.

Lemma order_by_Sorted {A} (key : A → Z) l :
  Sorted (fun a b => key a ≤ key b) (order_by key l).
Proof.
  unfold order_by. induction l as [|x l IH]; simpl; [constructor|].
  by apply insert_by_Sorted.
Qed.

(** X1: [get_all_participants] returns the rows of the participants
    table, all of them, in ascending order of id. *)
Theorem get_all_participants_sorted (d : Database) :
  ∃ ps, get_all_participants (reliable d) = (inr ps, reliable d)
        ∧ Sorted (fun p q => p_id p ≤ p_id q) ps
        ∧ ps ≡ₚ participants d.
Proof.
  exists (select_all_participants (participants d)). split; [done|].
  split; [apply order_by_Sorted|apply order_by_Permutation].
Qed.

(** X2: [get_selections_by_participant] returns the selections stored
    for that selector and no other, one entry per stored row, in
    ascending order of rank. *)
Theorem get_selections_by_participant_sorted (d : Database) (a : Z) :
  ∃ sels, get_selections_by_participant a (reliable d) = (inr sels, reliable d)
          ∧ Sorted (fun s t => rank s ≤ rank t) sels
          ∧ (∀ b r, mkSelection b r ∈ sels ↔ selects_with_rank d a b r)
          ∧ length sels
            = length (filter (fun row => s_selector_id row = a) (selections d)).
Proof.
  exists (select_selections a (selections d)). split; [done|].
  unfold select_selections. split; [|split].
  - apply (Sorted_fmap _ (fun r r' => s_rank r ≤ s_rank r')); [done|].
    apply order_by_Sorted.
  - intros b r. fold (select_selections a (selections d)).
    rewrite elem_of_select_selections. unfold selects_with_rank.
    split.
    + intros (row & Hrow & Ha & [= -> ->]). by exists row.
    + intros (row & Hrow & Ha & <- & <-). by exists row.
  - by rewrite length_fmap, order_by_Permutation.
Qed.

(** ** Participants and their tokens *)

(** PRIMARY KEY(id) and UNIQUE(unique_token). *)
Definition unique_participants (d : Database) : Prop :=
  NoDup (p_id <$> participants d) ∧ NoDup (p_unique_token <$> participants d).

Definition token_taken (d : Database) (token : string) : Prop :=
  token ∈ p_unique_token <$> participants d.

Definition info_of (p : Participant) : ParticipantInfo :=
  mkParticipantInfo (p_id p) (p_first_name p) (p_gender p).

Lemma filter_none {A} (P : A → Prop) `{!∀ x, Decision (P x)} (l : list A) :
  (∀ x, x ∈ l → ¬ P x) → filter P l = [].
Proof.
  induction l as [|x l IH]; [done|]. intros Hno.
  rewrite filter_cons_False by (apply Hno; left).
  apply IH. intros y Hy. apply Hno. by right.
Qed.

Lemma select_participant_by_token_None token table :
  select_participant_by_token token table = None
  ↔ token ∉ p_unique_token <$> table.
Proof.
  unfold select_participant_by_token. rewrite fmap_None, head_None. split.
  - intros Hnil (p & -> & Hp)%list_elem_of_fmap.
    by apply (filter_nil_not_elem_of _ _ p Hnil).
  - intros Hno. apply filter_none. intros p Hp Htok. apply Hno.
    apply list_elem_of_fmap. by exists p.
Qed.

Lemma select_participant_by_token_Some token table info :
  select_participant_by_token token table = Some info →
  ∃ p, p ∈ table ∧ p_unique_token p = token ∧ info = info_of p.
Proof.
  unfold select_participant_by_token.
  intros (p & Hhd & ->)%fmap_Some.
  apply head_Some_elem_of, list_elem_of_filter in Hhd as [Htok Hp].
  by exists p.
Qed.

(** X3: [get_participant_by_token] answers [None] exactly for a token no
    participant carries, and otherwise the id, first name and gender of a
    participant who carries it. *)
Theorem get_participant_by_token_found (d : Database) (token : string) :
  ∃ r, get_participant_by_token token (reliable d) = (inr r, reliable d)
       ∧ (r = None ↔ ¬ token_taken d token)
       ∧ ∀ info, r = Some info →
           ∃ p, p ∈ participants d ∧ p_unique_token p = token ∧ info = info_of p.
Proof.
  exists (select_participant_by_token token (participants d)).
  split; [done|]. split.
  - apply select_participant_by_token_None.
  - intros info. apply select_participant_by_token_Some.
Qed.

(** X4: [add_participant] with an id or a token that is already in the
    table answers [None] and changes nothing. *)
Theorem add_participant_duplicate (d : Database) (token : string) (id : Z)
    (first_name gender email : string) :
  sqlite_int id →
  listed d id ∨ token_taken d token →
  add_participant token id first_name gender email (reliable d)
  = (inr None, reliable d).
Proof.
  intros _ Hdup. unfold add_participant, transact. simpl.
  rewrite decide_True; [done|].
  destruct Hdup as [Hl|Ht]; [left; by apply elem_of_ids|by right].
Qed.

Lemma add_participant_duplicate_witness :
  sqlite_int 2
  ∧ (listed db_two_pairs 2 ∨ token_taken db_two_pairs "fresh")
  ∧ add_participant "fresh" 2 "D" "male" "d@x" (reliable db_two_pairs)
    = (inr None, reliable db_two_pairs).
Proof.
  assert (sqlite_int 2) as Hi by (unfold sqlite_int; lia).
  assert (listed db_two_pairs 2 ∨ token_taken db_two_pairs "fresh") as Hd.
  { left. exists (mkParticipant 2 "B" "female" "b@x" "t2").
    split; [right; left|reflexivity]. }
  split; [exact Hi|]. split; [exact Hd|].
  exact (add_participant_duplicate db_two_pairs "fresh" 2 "D" "male" "d@x" Hi Hd).
Defined.

(** X5: [add_participant] with a new id and a new token returns the
    token, and [get_participant_by_token] then finds the participant by
    it; the participants that were there stay, and selections and matches
    are untouched. *)
Theorem add_participant_then_lookup (d : Database) (token : string) (id : Z)
    (first_name gender email : string) :
  sqlite_int id →
  ¬ listed d id →
  ¬ token_taken d token →
  ∃ d', add_participant token id first_name gender email (reliable d)
        = (inr (Some token), reliable d')
        ∧ get_participant_by_token token (reliable d')
          = (inr (Some (mkParticipantInfo id first_name gender)), reliable d')
        ∧ participants d'
          = participants d ++ [mkParticipant id first_name gender email token]
        ∧ selections d' = selections d
        ∧ matches d' = matches d.
Proof.
  intros _ Hid Htok.
  exists (insert_participant (mkParticipant id first_name gender email token) d).
  split; [|split; [|done]].
  - unfold add_participant, transact. simpl.
    rewrite decide_False; [done|].
    intros [Hl|Ht]; [by apply Hid, elem_of_ids|done].
  - unfold get_participant_by_token, query. simpl. do 2 f_equal.
    unfold select_participant_by_token. rewrite filter_app.
    rewrite (filter_none _ (participants d)).
    + by rewrite filter_cons_True.
    + intros p Hp Hptok. apply Htok. apply list_elem_of_fmap. by exists p.
Qed.

Lemma add_participant_then_lookup_witness :
  sqlite_int 4
  ∧ ¬ listed db_two_pairs 4
  ∧ ¬ token_taken db_two_pairs "t4"
  ∧ ∃ d', add_participant "t4" 4 "D" "female" "d@x" (reliable db_two_pairs)
          = (inr (Some "t4"), reliable d')
          ∧ get_participant_by_token "t4" (reliable d')
            = (inr (Some (mkParticipantInfo 4 "D" "female")), reliable d')
          ∧ participants d'
            = participants db_two_pairs ++ [mkParticipant 4 "D" "female" "d@x" "t4"]
          ∧ selections d' = selections db_two_pairs
          ∧ matches d' = matches db_two_pairs.
Proof.
  assert (sqlite_int 4) as Hi by (unfold sqlite_int; lia).
  assert (¬ listed db_two_pairs 4) as Hl.
  { intros Hl%elem_of_ids. revert Hl.
    by apply (bool_decide_eq_false (4 ∈ p_id <$> participants db_two_pairs)). }
  assert (¬ token_taken db_two_pairs "t4") as Ht.
  { by apply (bool_decide_eq_false
                ("t4" ∈ p_unique_token <$> participants db_two_pairs)). }
  split; [exact Hi|]. split; [exact Hl|]. split; [exact Ht|].
  exact (add_participant_then_lookup db_two_pairs "t4" 4 "D" "female" "d@x" Hi Hl Ht).
Defined.

(** X6: [add_participant] keeps ids and tokens unique, whatever it
    answers and whether or not the store fails. *)
Theorem add_participant_keeps_unique (s s' : Store) (token : string) (id : Z)
    (first_name gender email : string) (r : exn + option string) :
  sqlite_int id →
  unique_participants (db s) →
  add_participant token id first_name gender email s = (r, s') →
  unique_participants (db s').
Proof.
  intros _ [Hids Htoks]. unfold add_participant, transact.
  destruct s as [d fl]. simpl.
  destruct (decide (id ∈ p_id <$> participants d
                    ∨ token ∈ p_unique_token <$> participants d)) as [|Hnew].
  - destruct fl as [[|k]|]; intros [= <- <-]; by split.
  - assert (unique_participants
              (insert_participant (mkParticipant id first_name gender email token) d)).
    { unfold unique_participants. simpl. rewrite !fmap_app. simpl.
      split; apply NoDup_app; (split; [done|]);
        (split; [|apply NoDup_singleton]);
        intros x Hx ->%list_elem_of_singleton; tauto. }
    destruct fl as [[|k]|]; intros [= <- <-]; [by split|done|done].
Qed.

Lemma add_participant_keeps_unique_witness :
  sqlite_int 4
  ∧ unique_participants db_two_pairs
  ∧ add_participant "t4" 4 "D" "female" "d@x" (reliable db_two_pairs)
    = (inr (Some "t4"),
       reliable (insert_participant (mkParticipant 4 "D" "female" "d@x" "t4")
                                    db_two_pairs))
  ∧ unique_participants
      (insert_participant (mkParticipant 4 "D" "female" "d@x" "t4") db_two_pairs).
Proof.
  assert (sqlite_int 4) as Hi by (unfold sqlite_int; lia).
  assert (unique_participants db_two_pairs) as Hu.
  { split.
    - by apply (bool_decide_eq_true (NoDup (p_id <$> participants db_two_pairs))).
    - by apply (bool_decide_eq_true
                  (NoDup (p_unique_token <$> participants db_two_pairs))). }
  split; [exact Hi|]. split; [exact Hu|]. split; [reflexivity|].
  exact (add_participant_keeps_unique (reliable db_two_pairs) _ "t4" 4 "D" "female"
           "d@x" _ Hi Hu eq_refl).
Defined.

(** ** Selections *)

(** UNIQUE(selector_id, selected_id). *)
Definition unique_pairs (d : Database) : Prop :=
  NoDup ((fun r => (s_selector_id r, s_selected_id r)) <$> selections d).

Definition reliable_app (d : Database) (seq : Z) : AppStore :=
  mkAppStore (reliable d) seq.

Lemma elem_of_pairs d a b :
  (a, b) ∈ (fun r => (s_selector_id r, s_selected_id r)) <$> selections d
  ↔ selects d a b.
Proof.
  rewrite list_elem_of_fmap. unfold selects. split.
  - intros (row & [= -> ->] & Hrow). by exists row.
  - intros (row & Hrow & <- & <-). by exists row.
Qed.


Lemma try_insert_selection_taken a b r d seq :
  selects d a b → try_insert_selection a b r d seq = (false, (d, seq)).
Proof.
  intros Hs. unfold try_insert_selection.
  by rewrite decide_True by (by apply elem_of_pairs).
Qed.

Lemma try_insert_selection_new a b r d seq :
  ¬ selects d a b →
  try_insert_selection a b r d seq
  = (true, (insert_selection (mkSelectionRow (seq + 1) a b r) d, seq + 1)).
Proof.
  intros Hs. unfold try_insert_selection.
  by rewrite decide_False by (by rewrite elem_of_pairs).
Qed.

Lemma insert_selection_rank row d a b r :
  selects_with_rank (insert_selection row d) a b r
  ↔ selects_with_rank d a b r
    ∨ (s_selector_id row = a ∧ s_selected_id row = b ∧ s_rank row = r).
Proof.
  unfold selects_with_rank, insert_selection. simpl. split.
  - intros (row' & [Hin|Hin%list_elem_of_singleton]%elem_of_app & H).
    + left. by exists row'.
    + right. by subst.
  - intros [(row' & Hin & H)|H].
    + exists row'. split; [|done]. apply elem_of_app. by left.
    + exists row. split; [|done]. apply elem_of_app. right. by left.
Qed.


(** X7: [add_selection] for a pair (selector, selected) that is already
    stored answers [False] and changes neither the tables nor the
    counter: the stored rank stays. *)
Theorem add_selection_duplicate (d : Database) (seq a b r : Z) :
  sqlite_int a → sqlite_int b → sqlite_int r →
  selects d a b →
  add_selection a b r (reliable_app d seq) = (inr false, reliable_app d seq).
Proof.
  intros _ _ _ Hs. unfold add_selection. simpl.
  by rewrite try_insert_selection_taken.
Qed.

Lemma add_selection_duplicate_witness :
  sqlite_int 2 ∧ sqlite_int 3 ∧ sqlite_int 9
  ∧ selects db_two_pairs 2 3
  ∧ add_selection 2 3 9 (reliable_app db_two_pairs 4)
    = (inr false, reliable_app db_two_pairs 4).
Proof.
  assert (sqlite_int 2) as H2 by (unfold sqlite_int; lia).
  assert (sqlite_int 3) as H3 by (unfold sqlite_int; lia).
  assert (sqlite_int 9) as H9 by (unfold sqlite_int; lia).
  assert (selects db_two_pairs 2 3) as Hs.
  { exists (mkSelectionRow 3 2 3 2). split; [right; right; left|done]. }
  repeat (split; [assumption|]).
  exact (add_selection_duplicate db_two_pairs 4 2 3 9 H2 H3 H9 Hs).
Defined.

(** X8: [add_selection] for a pair that is not stored answers [True] and
    stores it: [get_selections_by_participant] then returns it with its
    rank, every other selection is as before, and participants and
    matches are untouched. *)
Theorem add_selection_then_get (d : Database) (seq a b r : Z) :
  sqlite_int a → sqlite_int b → sqlite_int r →
  ¬ selects d a b →
  ∃ d' sels,
    add_selection a b r (reliable_app d seq) = (inr true, reliable_app d' (seq + 1))
    ∧ get_selections_by_participant a (reliable d') = (inr sels, reliable d')
    ∧ mkSelection b r ∈ sels
    ∧ (∀ a' b' r', selects_with_rank d' a' b' r'
                   ↔ selects_with_rank d a' b' r' ∨ (a' = a ∧ b' = b ∧ r' = r))
    ∧ participants d' = participants d
    ∧ matches d' = matches d.
Proof.
  intros _ _ _ Hs.
  exists (insert_selection (mkSelectionRow (seq + 1) a b r) d),
         (select_selections a
            (selections (insert_selection (mkSelectionRow (seq + 1) a b r) d))).
  split; [|split; [done|split; [|split; [|done]]]].
  - unfold add_selection. simpl. by rewrite try_insert_selection_new.
  - apply elem_of_select_selections.
    exists (mkSelectionRow (seq + 1) a b r). split; [|done].
    simpl. apply elem_of_app. right. by left.
  - intros a' b' r'. rewrite insert_selection_rank. simpl.
    split; (intros [?|(? & ? & ?)]; [by left|by right]).
Qed.

Lemma add_selection_then_get_witness :
  sqlite_int 1 ∧ sqlite_int 3 ∧ sqlite_int 0
  ∧ ¬ selects db_two_pairs 1 3
  ∧ ∃ d' sels,
      add_selection 1 3 0 (reliable_app db_two_pairs 4)
      = (inr true, reliable_app d' (4 + 1))
      ∧ get_selections_by_participant 1 (reliable d') = (inr sels, reliable d')
      ∧ mkSelection 3 0 ∈ sels
      ∧ (∀ a' b' r', selects_with_rank d' a' b' r'
                     ↔ selects_with_rank db_two_pairs a' b' r'
                       ∨ (a' = 1 ∧ b' = 3 ∧ r' = 0))
      ∧ participants d' = participants db_two_pairs
      ∧ matches d' = matches db_two_pairs.
Proof.
  assert (sqlite_int 1) as H1 by (unfold sqlite_int; lia).
  assert (sqlite_int 3) as H3 by (unfold sqlite_int; lia).
  assert (sqlite_int 0) as H0 by (unfold sqlite_int; lia).
  assert (¬ selects db_two_pairs 1 3) as Hs.
  { intros Hs%elem_of_pairs. revert Hs.
    by apply (bool_decide_eq_false
                ((1, 3) ∈ (fun r => (s_selector_id r, s_selected_id r))
                          <$> selections db_two_pairs)). }
  repeat (split; [assumption|]).
  exact (add_selection_then_get db_two_pairs 4 1 3 0 H1 H3 H0 Hs).
Defined.

(** X9: [add_selection] keeps the pairs (selector, selected) of the
    selections table unique, whatever it answers and whether or not the
    store fails. *)
Theorem add_selection_keeps_unique (s s' : AppStore) (a b r : Z)
    (res : exn + bool) :
  sqlite_int a → sqlite_int b → sqlite_int r →
  unique_pairs (db (store s)) →
  add_selection a b r s = (res, s') →
  unique_pairs (db (store s')).
Proof.
  intros _ _ _ Hu. unfold add_selection.
  destruct s as [[d fl] seq]. simpl in *.
  assert (unique_pairs (try_insert_selection a b r d seq).2.1) as Hu'.
  { unfold try_insert_selection. case_decide as Hin; [done|].
    unfold unique_pairs. simpl. rewrite fmap_app. simpl.
    apply NoDup_app. split; [done|]. split; [|apply NoDup_singleton].
    by intros x Hx ->%list_elem_of_singleton. }
  destruct fl as [[|k]|]; intros [= <- <-]; done.
Qed.

Lemma add_selection_keeps_unique_witness :
  sqlite_int 1 ∧ sqlite_int 3 ∧ sqlite_int 0
  ∧ unique_pairs db_two_pairs
  ∧ add_selection 1 3 0 (reliable_app db_two_pairs 4)
    = (inr true,
       reliable_app (insert_selection (mkSelectionRow 5 1 3 0) db_two_pairs) 5)
  ∧ unique_pairs (insert_selection (mkSelectionRow 5 1 3 0) db_two_pairs).
Proof.
  assert (sqlite_int 1) as H1 by (unfold sqlite_int; lia).
  assert (sqlite_int 3) as H3 by (unfold sqlite_int; lia).
  assert (sqlite_int 0) as H0 by (unfold sqlite_int; lia).
  assert (unique_pairs db_two_pairs) as Hu.
  { by apply (bool_decide_eq_true
                (NoDup ((fun r => (s_selector_id r, s_selected_id r))
                          <$> selections db_two_pairs))). }
  repeat (split; [assumption|]). split; [reflexivity|].
  exact (add_selection_keeps_unique (reliable_app db_two_pairs 4) _ 1 3 0 _
           H1 H3 H0 Hu eq_refl).
Defined.

Lemma delete_selections_rank p d a b r :
  selects_with_rank (delete_selections p d) a b r
  ↔ a ≠ p ∧ selects_with_rank d a b r.
Proof.
  unfold selects_with_rank, delete_selections. simpl. split.
  - intros (row & [Hne Hin]%list_elem_of_filter & <- & H). split; [done|].
    by exists row.
  - intros (Hne & row & Hin & <- & H). exists row. split; [|done].
    by apply list_elem_of_filter.
Qed.

(** X10: after [clear_selections p] the participant [p] has no selection
    left, every other participant's selections are returned as before,
    and participants and matches are untouched: matches found earlier
    stay in the table. *)
Theorem clear_selections_only_theirs (d : Database) (p : Z) :
  ∃ d', clear_selections p (reliable d) = (inr tt, reliable d')
        ∧ get_selections_by_participant p (reliable d') = (inr [], reliable d')
        ∧ (∀ a, a ≠ p →
                get_selections_by_participant a (reliable d')
                = (inr (select_selections a (selections d)), reliable d'))
        ∧ (∀ a b r, selects_with_rank d' a b r ↔ a ≠ p ∧ selects_with_rank d a b r)
        ∧ participants d' = participants d
        ∧ matches d' = matches d.
Proof.
  exists (delete_selections p d). split; [done|].
  split; [|split; [|split; [|done]]].
  - unfold get_selections_by_participant, query, select_selections. simpl.
    rewrite (filter_none _ (filter _ _)); [done|].
    by intros row [Hne _]%list_elem_of_filter.
  - intros a Hne.
    unfold get_selections_by_participant, query, select_selections. simpl.
    rewrite list_filter_filter_l; [done|]. intros row. congruence.
  - intros a b r. apply delete_selections_rank.
Qed.

(** X11: [clear_all_data] empties the three tables; the participant list
    is then empty and a matching run finds nothing and returns 0. *)
Theorem clear_all_data_empties (d : Database) :
  ∃ d', clear_all_data (reliable d) = (inr tt, reliable d')
        ∧ participants d' = []
        ∧ selections d' = []
        ∧ matches d' = []
        ∧ get_all_participants (reliable d') = (inr [], reliable d')
        ∧ get_all_matches (reliable d') = (inr [], reliable d')
        ∧ run_matching_algorithm (reliable d') = (inr 0%nat, reliable d').
Proof. exists (delete_all d). by repeat split. Qed.

(** ** The list of matches *)

Lemma elem_of_join_participants table m v :
  v ∈ join_participants table m ↔
  ∃ p1 p2, p1 ∈ table ∧ p2 ∈ table
           ∧ p_id p1 = participant1_id (m_columns m)
           ∧ p_id p2 = participant2_id (m_columns m)
           ∧ v = mkMatchView (m_id m)
                   (participant1_id (m_columns m)) (p_first_name p1)
                   (participant2_id (m_columns m)) (p_first_name p2)
                   (rank1 (m_columns m)) (rank2 (m_columns m)).
Proof.
  unfold join_participants. rewrite list_elem_of_bind. split.
  - intros (p1 & (p2 & Hv%list_elem_of_singleton & [H2 Hp2]%list_elem_of_filter)%list_elem_of_bind
            & [H1 Hp1]%list_elem_of_filter).
    by exists p1, p2.
  - intros (p1 & p2 & Hp1 & Hp2 & H1 & H2 & ->).
    exists p1. split; [|by apply list_elem_of_filter].
    apply list_elem_of_bind. exists p2. split; [by left|].
    by apply list_elem_of_filter.
Qed.

(** X12: [get_all_matches] lists, in ascending order of match id, the
    stored matches whose two participants are both in the participants
    table, with the first names found there; a stored match with an
    unlisted participant is not shown. *)
Theorem get_all_matches_joined (d : Database) :
  ∃ rows, get_all_matches (reliable d) = (inr rows, reliable d)
          ∧ Sorted (fun v w => v_id v ≤ v_id w) rows
          ∧ (∀ v, v ∈ rows ↔
                  ∃ m p1 p2,
                    m ∈ matches d ∧ p1 ∈ participants d ∧ p2 ∈ participants d
                    ∧ p_id p1 = participant1_id (m_columns m)
                    ∧ p_id p2 = participant2_id (m_columns m)
                    ∧ v = mkMatchView (m_id m)
                            (participant1_id (m_columns m)) (p_first_name p1)
                            (participant2_id (m_columns m)) (p_first_name p2)
                            (rank1 (m_columns m)) (rank2 (m_columns m)))
          ∧ Forall (fun v => listed d (v_participant1_id v)
                             ∧ listed d (v_participant2_id v)) rows.
Proof.
  exists (select_all_matches d). split; [done|].
  split; [apply order_by_Sorted|].
  assert (∀ v, v ∈ select_all_matches d ↔
               ∃ m p1 p2,
                 m ∈ matches d ∧ p1 ∈ participants d ∧ p2 ∈ participants d
                 ∧ p_id p1 = participant1_id (m_columns m)
                 ∧ p_id p2 = participant2_id (m_columns m)
                 ∧ v = mkMatchView (m_id m)
                         (participant1_id (m_columns m)) (p_first_name p1)
                         (participant2_id (m_columns m)) (p_first_name p2)
                         (rank1 (m_columns m)) (rank2 (m_columns m))) as Hrows.
  { intros v. unfold select_all_matches.
    rewrite elem_of_order_by, list_elem_of_bind. split.
    - intros (m & (p1 & p2 & H)%elem_of_join_participants & Hm).
      exists m, p1, p2. tauto.
    - intros (m & p1 & p2 & Hm & H). exists m. split; [|done].
      apply elem_of_join_participants. by exists p1, p2. }
  split; [done|]. apply Forall_forall.
  intros v (m & p1 & p2 & Hm & Hp1 & Hp2 & H1 & H2 & ->)%Hrows. simpl.
  split; [by exists p1|by exists p2].
Qed.

Lemma filter_key_singleton {A} (f : A → Z) (l : list A) (x : Z) :
  NoDup (f <$> l) → x ∈ f <$> l →
  ∃ y, filter (fun z => f z = x) l = [y].
Proof.
  induction l as [|y l IH].
  - by intros _ ?%elem_of_nil.
  - rewrite fmap_cons. intros [Hy Hl]%NoDup_cons Hx.
    destruct (decide (f y = x)) as [Heq|Hne].
    + exists y. rewrite filter_cons_True by done. f_equal.
      apply filter_none. intros z Hz Hfz. apply Hy. rewrite Heq, <- Hfz.
      by apply list_elem_of_fmap_2.
    + rewrite filter_cons_False by done. apply IH; [done|].
      apply elem_of_cons in Hx as [Hx|Hx]; [congruence|done].
Qed.

Lemma length_bind_singletons {A B} (g : A → list B) (l : list A) :
  (∀ x, x ∈ l → length (g x) = 1%nat) → length (l ≫= g) = length l.
Proof.
  induction l as [|x l IH]; [done|]. intros Hg.
  rewrite bind_cons, length_app, Hg by left. simpl. f_equal.
  apply IH. intros y Hy. apply Hg. by right.
Qed.

Lemma join_participants_one table m :
  NoDup (p_id <$> table) →
  participant1_id (m_columns m) ∈ p_id <$> table →
  participant2_id (m_columns m) ∈ p_id <$> table →
  length (join_participants table m) = 1%nat.
Proof.
  intros Hn H1 H2. unfold join_participants.
  destruct (filter_key_singleton p_id table _ Hn H1) as [p1 ->].
  destruct (filter_key_singleton p_id table _ Hn H2) as [p2 ->].
  done.
Qed.

(** X13: with unique participant ids and every selector listed, the
    number of rows [get_all_matches] shows after a matching run is the
    count the run returned. *)
Theorem get_all_matches_after_run (d : Database) :
  NoDup (p_id <$> participants d) →
  (∀ a b, selects d a b → listed d a) →
  ∃ n d' rows,
    run_matching_algorithm (reliable d) = (inr n, reliable d')
    ∧ get_all_matches (reliable d') = (inr rows, reliable d')
    ∧ length rows = n.
Proof.
  intros Hn Hfk.
  destruct (find_mutual_matches_reads d) as (n & ms & Hr & _ & [_ He]).
  destruct (insert_all_tables ms (delete_matches d)) as (HP & _ & HM & _).
  exists (length ms), (insert_all ms (delete_matches d)),
         (select_all_matches (insert_all ms (delete_matches d))).
  split; [exact (run_matching_algorithm_outcome d ms n Hr None)|].
  split; [done|].
  unfold select_all_matches. rewrite order_by_Permutation, HP. simpl.
  rewrite length_bind_singletons.
  - by rewrite <- (length_fmap m_columns), HM.
  - intros m Hm.
    assert (m_columns m ∈ ms) as [(_ & H1 & H2) _]%He.
    { rewrite <- (app_nil_l ms). change [] with (m_columns <$> matches (delete_matches d)).
      rewrite <- HM. by apply list_elem_of_fmap_2. }
    apply join_participants_one; [done| |]; apply elem_of_ids.
    + apply (Hfk _ (participant2_id (m_columns m))), their_selects. eauto.
    + apply (Hfk _ (participant1_id (m_columns m))), their_selects. eauto.
Qed.

Lemma get_all_matches_after_run_witness :
  NoDup (p_id <$> participants db_two_pairs)
  ∧ (∀ a b, selects db_two_pairs a b → listed db_two_pairs a)
  ∧ ∃ n d' rows,
      run_matching_algorithm (reliable db_two_pairs) = (inr n, reliable d')
      ∧ get_all_matches (reliable d') = (inr rows, reliable d')
      ∧ length rows = n.
Proof.
  assert (NoDup (p_id <$> participants db_two_pairs)) as Hn.
  { by apply (bool_decide_eq_true (NoDup (p_id <$> participants db_two_pairs))). }
  assert (∀ a b, selects db_two_pairs a b → listed db_two_pairs a) as Hfk.
  { intros a b (row & Hrow & <- & _). apply elem_of_ids.
    simpl in Hrow.
    repeat (apply elem_of_cons in Hrow as [->|Hrow]);
      [..|by apply elem_of_nil in Hrow];
      by eapply bool_decide_unpack. }
  split; [exact Hn|]. split; [exact Hfk|].
  exact (get_all_matches_after_run db_two_pairs Hn Hfk).
Defined.

(** A listed participant and an unlisted id that select each other: the
    run counts one match, and the list of matches shows none. *)
Example unlisted_match_not_shown :
  ∃ d', run_matching_algorithm
          (reliable (mkDatabase [mkParticipant 1 "A" "male" "a@x" "t1"]
                                [mkSelectionRow 1 1 2 1; mkSelectionRow 2 2 1 1]
                                [] 0))
        = (inr 1%nat, reliable d')
        ∧ get_all_matches (reliable d') = (inr [], reliable d').
Proof. eexists. split; reflexivity. Qed.

(** * Properties of the routes *)

Lemma run_outcome_cases d ms n fl :
  ∃ r d' fl',
    run_outcome d ms n fl = (r, mkStore d' fl')
    ∧ participants d' = participants d
    ∧ selections d' = selections d
    ∧ ((r = inl OperationalError ∧ fl' = Some 0%nat)
       ∨ (r = inr (length ms) ∧ length (matches d') = length ms)).
Proof.
  destruct (insert_all_tables ms (delete_matches d)) as (HP & HS & HM & _).
  assert (length (matches (insert_all ms (delete_matches d))) = length ms) as Hlen
    by (by rewrite <- (length_fmap m_columns), HM).
  unfold run_outcome. destruct fl as [k|].
  - repeat case_match.
    + exists (inl OperationalError), d, (Some 0%nat).
      split_and!; [done..|by left].
    + exists (inl OperationalError), (delete_matches d), (Some 0%nat).
      split_and!; [done..|by left].
    + destruct (insert_all_tables (take (k - (2 + n)) ms) (delete_matches d))
        as (HP' & HS' & _).
      eexists (inl OperationalError), _, (Some 0%nat).
      split_and!; [done..|by left].
    + eexists (inr (length ms)), _, _.
      split_and!; [done..|by right].
  - eexists (inr (length ms)), _, None.
    split_and!; [done..|by right].
Qed.

(** X14: the run-matching route never raises: it answers the count,
    which is then the number of rows of the matches table, or, when the
    store failed, a server error; participants, selections and the
    selections counter are untouched either way. *)
Theorem run_matching_never_raises (d : Database) (fl : option nat) (seq : Z) :
  ∃ resp a',
    run_matching (mkAppStore (mkStore d fl) seq) = (inr resp, a')
    ∧ selections_seq a' = seq
    ∧ participants (db (store a')) = participants d
    ∧ selections (db (store a')) = selections d
    ∧ ((resp = ServerError OperationalError ∧ faults (store a') = Some 0%nat)
       ∨ (∃ n, resp = MatchesFound n
               ∧ length (matches (db (store a'))) = n)).
Proof.
  destruct (find_mutual_matches_reads d) as (n & ms & Hr & _ & _).
  destruct (run_outcome_cases d ms n fl) as (r & d' & fl' & Hrun & HP & HS & Hcase).
  unfold run_matching, try_except, bindA, lift, retA. simpl.
  rewrite (run_matching_algorithm_outcome d ms n Hr), Hrun. simpl.
  destruct Hcase as [[-> ->]|[-> Hlen]]; simpl.
  - eexists _, _. split; [reflexivity|]. simpl.
    split_and!; [done..|by left].
  - eexists _, _. split; [reflexivity|]. simpl.
    split_and!; [done..|]. right. by exists (length ms).
Qed.

(** X15: the two token routes answer an unknown token with "Invalid
    token" and change nothing, whatever selections were submitted. *)
Theorem unknown_token_rejected (d : Database) (seq : Z) (token : string)
    (submitted : list SubmittedSelection) :
  ¬ token_taken d token →
  submit_selections token submitted (reliable_app d seq)
  = (inr InvalidToken, reliable_app d seq)
  ∧ get_participant token (reliable_app d seq)
    = (inr InvalidToken, reliable_app d seq).
Proof.
  intros Hno%select_participant_by_token_None.
  unfold submit_selections, get_participant, bindA, lift,
    get_participant_by_token, query. simpl.
  by rewrite Hno.
Qed.

Lemma unknown_token_rejected_witness :
  ¬ token_taken db_two_pairs "nobody"
  ∧ submit_selections "nobody" [mkSubmittedSelection 1 (Some 1)]
                      (reliable_app db_two_pairs 4)
    = (inr InvalidToken, reliable_app db_two_pairs 4)
  ∧ get_participant "nobody" (reliable_app db_two_pairs 4)
    = (inr InvalidToken, reliable_app db_two_pairs 4).
Proof.
  assert (¬ token_taken db_two_pairs "nobody") as Hno.
  { by apply (bool_decide_eq_false
                ("nobody" ∈ p_unique_token <$> participants db_two_pairs)). }
  split; [exact Hno|].
  exact (unknown_token_rejected db_two_pairs 4 "nobody"
           [mkSubmittedSelection 1 (Some 1)] Hno).
Defined.

(** ** Submitting selections *)








Lemma token_lookup d token info :
  get_participant_by_token token (reliable d) = (inr (Some info), reliable d) →
  select_participant_by_token token (participants d) = Some info.
Proof. unfold get_participant_by_token, query. simpl. by intros [= ->]. Qed.






(** ** The participant page *)

Lemma opposite_gender_differs g : opposite_gender g ≠ g.
Proof.
  unfold opposite_gender. destruct (String.eqb_spec g "male") as [->|Hne].
  - discriminate.
  - congruence.
Qed.

(** X18: with a token that is found, the participant page offers exactly
    the listed participants of the other gender, never the participant
    itself and never one of its own gender, together with the
    participant's current selections. *)
Theorem get_participant_offers (d : Database) (seq : Z) (token : string)
    (info : ParticipantInfo) :
  get_participant_by_token token (reliable d) = (inr (Some info), reliable d) →
  ∃ available,
    get_participant token (reliable_app d seq)
    = (inr (ParticipantPage info available
              (select_selections (i_id info) (selections d))),
       reliable_app d seq)
    ∧ (∀ id name,
         (id, name) ∈ available ↔
         ∃ p, p ∈ participants d ∧ p_id p = id ∧ p_first_name p = name
              ∧ id ≠ i_id info
              ∧ p_gender p = opposite_gender (i_gender info))
    ∧ Forall (fun offered =>
                offered.1 ≠ i_id info
                ∧ ∃ p, p ∈ participants d ∧ p_id p = offered.1
                       ∧ p_first_name p = offered.2
                       ∧ p_gender p ≠ i_gender info)
             available.
Proof.
  intros Hinfo%token_lookup.
  set (available :=
         (fun p => (p_id p, p_first_name p)) <$>
           filter (fun p => p_id p ≠ i_id info
                            ∧ p_gender p = opposite_gender (i_gender info))
                  (select_all_participants (participants d))).
  assert (∀ id name,
            (id, name) ∈ available ↔
            ∃ p, p ∈ participants d ∧ p_id p = id ∧ p_first_name p = name
                 ∧ id ≠ i_id info
                 ∧ p_gender p = opposite_gender (i_gender info)) as Havail.
  { intros id name. unfold available, select_all_participants.
    rewrite list_elem_of_fmap. setoid_rewrite list_elem_of_filter.
    setoid_rewrite elem_of_order_by. split.
    - intros (p & [= -> ->] & [Hne Hg] & Hp). by exists p.
    - intros (p & Hp & <- & <- & Hne & Hg). by exists p. }
  exists available. split; [|split; [done|]].
  - unfold get_participant, bindA, lift, get_participant_by_token,
      get_all_participants, get_selections_by_participant, query. simpl.
    by rewrite Hinfo.
  - apply Forall_forall. intros [id name] (p & Hp & <- & <- & Hne & Hg)%Havail.
    simpl. split; [done|]. exists p. split; [done|]. split; [done|].
    split; [done|]. rewrite Hg. apply opposite_gender_differs.
Qed.

Lemma get_participant_offers_witness :
  get_participant_by_token "t2" (reliable db_two_pairs)
  = (inr (Some (mkParticipantInfo 2 "B" "female")), reliable db_two_pairs)
  ∧ ∃ available,
      get_participant "t2" (reliable_app db_two_pairs 4)
      = (inr (ParticipantPage (mkParticipantInfo 2 "B" "female") available
                (select_selections 2 (selections db_two_pairs))),
         reliable_app db_two_pairs 4)
      ∧ (∀ id name,
           (id, name) ∈ available ↔
           ∃ p, p ∈ participants db_two_pairs ∧ p_id p = id
                ∧ p_first_name p = name
                ∧ id ≠ 2
                ∧ p_gender p = opposite_gender "female")
      ∧ Forall (fun offered =>
                  offered.1 ≠ 2
                  ∧ ∃ p, p ∈ participants db_two_pairs ∧ p_id p = offered.1
                         ∧ p_first_name p = offered.2
                         ∧ p_gender p ≠ "female")
               available.
Proof.
  split; [reflexivity|].
  exact (get_participant_offers db_two_pairs 4 "t2"
           (mkParticipantInfo 2 "B" "female") eq_refl).
Defined.

(** ** Clearing everything *)

(** X19: the clear-all route never raises and is all-or-nothing: either
    it answers that all data is cleared and the three tables are empty,
    or the store failed, it answers a server error, and every table is as
    it was. *)
Theorem clear_all_atomic (d : Database) (fl : option nat) (seq : Z) :
  ∃ resp a',
    clear_all (mkAppStore (mkStore d fl) seq) = (inr resp, a')
    ∧ selections_seq a' = seq
    ∧ ((resp = AllCleared
        ∧ participants (db (store a')) = []
        ∧ selections (db (store a')) = []
        ∧ matches (db (store a')) = [])
       ∨ (resp = ServerError OperationalError
          ∧ db (store a') = d)).
Proof.
  unfold clear_all, try_except, bindA, lift, retA, clear_all_data, execute.
  destruct fl as [[|k]|]; simpl; eexists _, _; (split; [reflexivity|]);
    simpl; (split; [done|]).
  - by right.
  - left. by repeat split.
  - left. by repeat split.
Qed.

(** ** From submissions to matches *)






